(** * Win32 CRT replacement layer (src/native/win32-crt.c)

    A shallow embedding of the heap wrappers, the raw-memory and string
    primitives, the integer parsers, the single-unit encoding conversions
    and the insertion-sort [qsort] of win32-crt.c, with the properties the
    specification states about them.

    Conventions.
    - An address is an integer ([Z]); [NULL] is [0].  Pointer arithmetic is
      plain integer arithmetic: every object is assumed to lie inside the
      address space, so address computations do not wrap.
    - Memory is a total map from addresses to cells.  For [char*] code a
      cell is a byte; for [wchar_t*] code the same map is read in units of
      [wchar_t] (the address counts elements).  The terminator is the cell
      value [0].
    - A [size_t] is an integer in [0, SIZE_MOD); its arithmetic wraps and is
      written out where the source relies on it.
    - The Win32 primitives ([HeapAlloc], [HeapFree], [HeapReAlloc],
      [WideCharToMultiByte], [MultiByteToWideChar], [iswspace]) are not part
      of the repository: they are the fields of the class [Win32]. *)

From Stdlib Require Import ZArith List Lia Bool Permutation Sorted.
Import ListNotations.
Local Open Scope Z_scope.

(** ** Memory *)

Definition NULL : Z := 0.

Definition memory := Z -> Z.

(** [*a = v] *)
Definition store (m : memory) (a v : Z) : memory :=
  fun x => if x =? a then v else m x.

(** The [n] cells starting at [a]. *)
Fixpoint load_range (m : memory) (a : Z) (n : nat) : list Z :=
  match n with
  | O => []
  | S n' => m a :: load_range m (a + 1) n'
  end.

(** The memory [m] with the cells of [l] written from address [base] on;
    used to write down concrete inputs. *)
Fixpoint write_list (m : memory) (base : Z) (l : list Z) : memory :=
  match l with
  | [] => m
  | v :: l' => store (write_list m (base + 1) l') base v
  end.

(** Fixed-width integers: [wrap_signed bits x] is [x] reduced to the signed
    [bits]-bit range, as a two's-complement machine does. *)
Definition wrap_signed (bits x : Z) : Z :=
  (x + 2 ^ (bits - 1)) mod 2 ^ bits - 2 ^ (bits - 1).

(** [(int)x] *)
Definition to_int (x : Z) : Z := wrap_signed 32 x.

(** ** The platform *)

Record process (Heap : Type) := mkProcess { heap : Heap; mem : memory }.
Arguments mkProcess {Heap}.
Arguments heap {Heap}.
Arguments mem {Heap}.

Class Win32 := {
  (* the size of a pointer, which is also that of a [size_t] *)
  sizeof_ptr : Z;
  sizeof_ptr_pos : 0 < sizeof_ptr;
  (* state of the process heap behind [GetProcessHeap()] *)
  Heap : Type;
  (* [HeapAlloc(heap, dwFlags, dwBytes)]: the block's address, or [NULL] *)
  HeapAlloc : Heap -> Z -> Z -> Z * Heap;
  (* [HeapFree(heap, 0, p)]; the code ignores its result *)
  HeapFree : Heap -> Z -> Heap;
  (* [HeapReAlloc(heap, 0, p, dwBytes)] moves the block's content, so it
      acts on the memory as well *)
  HeapReAlloc : process Heap -> Z -> Z -> Z -> Z * process Heap;
  (* [WideCharToMultiByte(CodePage, dwFlags, lpWideCharStr, cchWideChar,
      lpMultiByteStr, cbMultiByte, lpDefaultChar, lpUsedDefaultChar)];
      the source units are passed by value *)
  WideCharToMultiByte :
    memory -> Z -> Z -> list Z -> Z -> Z -> Z -> Z -> Z -> Z * memory;
  (* [MultiByteToWideChar(CodePage, dwFlags, lpMultiByteStr, cbMultiByte,
      lpWideCharStr, cchWideChar)] *)
  MultiByteToWideChar :
    memory -> Z -> Z -> Z -> Z -> Z -> Z -> Z * memory;
  (* [iswspace], a macro of the MinGW headers *)
  iswspace : Z -> bool;
  iswspace_NUL : iswspace 0 = false
}.


(** ** Heap functions *)

Section Heap.
Context {os : Win32}.

Definition SIZE_MOD : Z := 2 ^ (8 * sizeof_ptr).

(** [(size_t)-1] *)
Definition SIZE_MAX : Z := SIZE_MOD - 1.
Definition to_size_t (x : Z) : Z := x mod SIZE_MOD.

Definition malloc (st : process Heap) (size : Z) : Z * process Heap :=
  let size := if size =? 0 then 1 else size in
  let (p, h) := HeapAlloc (heap st) 0 size in
  (p, mkProcess h (mem st)).

Definition realloc (st : process Heap) (ptr size : Z) : Z * process Heap :=
  if ptr =? NULL then malloc st size
  else if size =? 0 then
    (NULL, mkProcess (HeapFree (heap st) ptr) (mem st))
  else HeapReAlloc st 0 ptr size.

Definition free (st : process Heap) (ptr : Z) : process Heap :=
  if negb (ptr =? NULL) then mkProcess (HeapFree (heap st) ptr) (mem st)
  else st.

(** A pointer in memory: [n] bytes, least significant first. *)
Fixpoint store_bytes (n : nat) (m : memory) (a v : Z) : memory :=
  match n with
  | O => m
  | S n' => store_bytes n' (store m a (v mod 256)) (a + 1) (v / 256)
  end.

Fixpoint load_bytes (n : nat) (m : memory) (a : Z) : Z :=
  match n with
  | O => 0
  | S n' => m a + 256 * load_bytes n' m (a + 1)
  end.

(** [*(void** )a = v] and [*(void** )a] *)
Definition store_ptr (m : memory) (a v : Z) : memory :=
  store_bytes (Z.to_nat sizeof_ptr) m a v.

Definition load_ptr (m : memory) (a : Z) : Z :=
  load_bytes (Z.to_nat sizeof_ptr) m a.

Definition _aligned_malloc (st : process Heap) (size alignment : Z)
  : Z * process Heap :=
  let (raw, st) :=
    malloc st (to_size_t (to_size_t (size + alignment) + sizeof_ptr)) in
  if raw =? NULL then (NULL, st)
  else
    let aligned :=
      Z.land
        (to_size_t (to_size_t (to_size_t (raw + sizeof_ptr) + alignment) - 1))
        (to_size_t (Z.lnot (to_size_t (alignment - 1)))) in
    (aligned,
     mkProcess (heap st) (store_ptr (mem st) (aligned - sizeof_ptr) raw)).

Definition _aligned_free (st : process Heap) (ptr : Z) : process Heap :=
  if negb (ptr =? NULL) then free st (load_ptr (mem st) (ptr - sizeof_ptr))
  else st.

End Heap.

(** ** Memory functions

    The functions below return [dest] in C; the model returns the memory
    they leave. *)

(** [while (count--) *d++ = *s++;] *)
Fixpoint copy_forward (count : nat) (m : memory) (d s : Z) : memory :=
  match count with
  | O => m
  | S count' => copy_forward count' (store m d (m s)) (d + 1) (s + 1)
  end.

(** [while (count--) *--d = *--s;] *)
Fixpoint copy_backward (count : nat) (m : memory) (d s : Z) : memory :=
  match count with
  | O => m
  | S count' => copy_backward count' (store m (d - 1) (m (s - 1))) (d - 1) (s - 1)
  end.

Definition memcpy (m : memory) (dest src count : Z) : memory :=
  copy_forward (Z.to_nat count) m dest src.

Definition memmove (m : memory) (dest src count : Z) : memory :=
  if dest <? src then copy_forward (Z.to_nat count) m dest src
  else if dest >? src then
    copy_backward (Z.to_nat count) m (dest + count) (src + count)
  else m.

(** ** String functions *)

(** [while (count && ( *d++ = *src++)) count--;]
    yields the memory, [d] and the remaining [count]. *)
Fixpoint strncpy_copy (count : nat) (m : memory) (d src : Z)
  : memory * Z * nat :=
  match count with
  | O => (m, d, O)
  | S count' =>
    let c := m src in
    let m' := store m d c in
    if c =? 0 then (m', d + 1, count)
    else strncpy_copy count' m' (d + 1) (src + 1)
  end.

(** [while (count--) *d++ = '\0';] *)
Fixpoint strncpy_pad (count : nat) (m : memory) (d : Z) : memory :=
  match count with
  | O => m
  | S count' => strncpy_pad count' (store m d 0) (d + 1)
  end.

Definition strncpy (m : memory) (dest src count : Z) : memory :=
  let '(m, d, count) := strncpy_copy (Z.to_nat count) m dest src in
  strncpy_pad count m d.

(** The same code over [wchar_t] cells. *)
Definition wcsncpy (m : memory) (dest src count : Z) : memory :=
  let '(m, d, count) := strncpy_copy (Z.to_nat count) m dest src in
  strncpy_pad count m d.

(** [while ( *d) d++;]  The scan has no bound in the source: it is run with
    fuel, and [None] means the fuel ran out before a terminator was met. *)
Fixpoint scan_terminator (fuel : nat) (m : memory) (d : Z) : option Z :=
  match fuel with
  | O => None
  | S fuel' => if m d =? 0 then Some d else scan_terminator fuel' m (d + 1)
  end.

Section Strings.
Context {os : Win32}.

(** [while (count-- && ( *d++ = *src++));]
    yields the memory, [d] and [count] as the loop leaves them; leaving
    through [count--] at zero wraps [count] to [(size_t)-1]. *)
Fixpoint strncat_copy (count : nat) (m : memory) (d src : Z)
  : memory * Z * Z :=
  match count with
  | O => (m, d, SIZE_MAX)
  | S count' =>
    let c := m src in
    let m' := store m d c in
    if c =? 0 then (m', d + 1, Z.of_nat count')
    else strncat_copy count' m' (d + 1) (src + 1)
  end.

Definition strncat (fuel : nat) (m : memory) (dest src count : Z)
  : option memory :=
  match scan_terminator fuel m dest with
  | None => None
  | Some d =>
    let '(m, d, count) := strncat_copy (Z.to_nat count) m d src in
    Some (if count =? SIZE_MAX then store m (d - 1) 0 else m)
  end.

End Strings.

(** ** Character classification *)

Definition isspace (c : Z) : bool :=
  (c =? 32) || (c =? 9) || (c =? 10) || (c =? 13) || (c =? 12) || (c =? 11).

(** ** String to number conversion

    The input is read only, and only up to its terminator: it is modelled
    as the list of the cells from [str] on, followed by a terminator (a [0]
    inside the list is a terminator as well).  The parse cursor [p] is an
    offset from [str]; so is the end-pointer, [None] when the caller passed
    [NULL] for it. *)

(** [p[i]] *)
Definition char_at (str : list Z) (p : nat) : Z := nth p str 0.

(** [while (space( *p)) p++;] over the cells [s] at offset [p].  No
    whitespace test accepts the terminator, so the loop stops at the end of
    the list at the latest. *)
Fixpoint skip_spaces (space : Z -> bool) (s : list Z) (p : nat) : nat :=
  match s with
  | [] => p
  | c :: s' => if space c then skip_spaces space s' (S p) else p
  end.

(** The sign: the [negative] flag and the cursor. *)
Definition parse_sign (str : list Z) (p : nat) : bool * nat :=
  if char_at str p =? 45 then (true, S p)
  else if char_at str p =? 43 then (false, S p)
  else (false, p).

(** The base detection: the base to convert in and the cursor. *)
Definition detect_base (base : Z) (str : list Z) (p : nat) : Z * nat :=
  if base =? 0 then
    if char_at str p =? 48 then
      if (char_at str (p + 1) =? 120) || (char_at str (p + 1) =? 88)
      then (16, (p + 2)%nat)
      else (8, (p + 1)%nat)
    else (10, p)
  else if (base =? 16) && (char_at str p =? 48)
          && ((char_at str (p + 1) =? 120) || (char_at str (p + 1) =? 88))
  then (base, (p + 2)%nat)
  else (base, p).

(** The value of a digit character, [None] for any other character. *)
Definition digit_value (c : Z) : option Z :=
  if (c >=? 48) && (c <=? 57) then Some (c - 48)
  else if (c >=? 97) && (c <=? 122) then Some (c - 97 + 10)
  else if (c >=? 65) && (c <=? 90) then Some (c - 65 + 10)
  else None.

(** The conversion loop over the cells [s] at offset [p], accumulating in
    a signed integer of [bits] bits: a [long] has 32 bits on Win32 and a
    [long long] 64.  The accumulation wraps. *)
Fixpoint convert (bits base : Z) (s : list Z) (result : Z) (p : nat)
  : Z * nat :=
  match s with
  | [] => (result, p)
  | c :: s' =>
    if c =? 0 then (result, p)
    else
      match digit_value c with
      | None => (result, p)
      | Some digit =>
        if digit >=? base then (result, p)
        else convert bits base s' (wrap_signed bits (result * base + digit)) (S p)
      end
  end.

Definition strtol (str : list Z) (endptr : bool) (base : Z)
  : Z * option nat :=
  let p := skip_spaces (fun c => isspace (c mod 256)) str 0 in
  let '(negative, p) := parse_sign str p in
  let '(base, p) := detect_base base str p in
  let '(result, p) := convert 32 base (skipn p str) 0 p in
  (if negative then wrap_signed 32 (- result) else result,
   if endptr then Some p else None).

Definition strtoll (str : list Z) (endptr : bool) (base : Z)
  : Z * option nat :=
  let p := skip_spaces (fun c => isspace (c mod 256)) str 0 in
  let '(negative, p) := parse_sign str p in
  let '(base, p) := detect_base base str p in
  let '(result, p) := convert 64 base (skipn p str) 0 p in
  (if negative then wrap_signed 64 (- result) else result,
   if endptr then Some p else None).

Section Wide.
Context {os : Win32}.

Definition wcstol (str : list Z) (endptr : bool) (base : Z)
  : Z * option nat :=
  let p := skip_spaces iswspace str 0 in
  let '(negative, p) := parse_sign str p in
  let '(base, p) := detect_base base str p in
  let '(result, p) := convert 32 base (skipn p str) 0 p in
  (if negative then wrap_signed 32 (- result) else result,
   if endptr then Some p else None).

(** ** Wide to multibyte conversion *)



End Wide.

(** Where the digits start: the cursor after the whitespace, the sign and
    the base prefix, together with the base selected.  This repeats the
    first three steps of the parsers and is used to state what they
    consumed. *)
Definition digits_start (space : Z -> bool) (str : list Z) (base : Z)
  : Z * nat :=
  let p := skip_spaces space str 0 in
  let '(_, p) := parse_sign str p in
  detect_base base str p.

(** ** Utility functions *)

Section Sort.
Context {os : Win32}.

(** The comparator is called with two pointers; it reads the memory. *)
Variable compar : memory -> Z -> Z -> Z.

(** [while (j > 0 && compar(arr + (j - 1) * size, temp) > 0) { ... j--; }]
    yields the memory and [j]. *)
Fixpoint qsort_shift (j : nat) (m : memory) (arr temp size : Z)
  : memory * nat :=
  match j with
  | O => (m, O)
  | S j' =>
    if compar m (arr + Z.of_nat j' * size) temp >? 0 then
      qsort_shift j'
        (memcpy m (arr + Z.of_nat j * size) (arr + Z.of_nat j' * size) size)
        arr temp size
    else (m, j)
  end.

(** The [for] loop from index [i] on, with [todo] iterations left. *)
Fixpoint qsort_loop (todo i : nat) (m : memory) (arr temp size : Z)
  : memory :=
  match todo with
  | O => m
  | S todo' =>
    let m := memcpy m temp (arr + Z.of_nat i * size) size in
    let '(m, j) := qsort_shift i m arr temp size in
    let m := memcpy m (arr + Z.of_nat j * size) temp size in
    qsort_loop todo' (S i) m arr temp size
  end.

Definition qsort (st : process Heap) (base num size : Z) : process Heap :=
  let arr := base in
  let (temp, st) := malloc st size in
  if temp =? NULL then st
  else
    let m := qsort_loop (Z.to_nat num - 1) 1 (mem st) arr temp size in
    free (mkProcess (heap st) m) temp.

End Sort.

(** ** The other memory functions

    A cell holds a [char] value, or the [unsigned char] value of its byte
    where [memset] wrote it.  Read through an [unsigned char*], or cast to
    [unsigned char], it is reduced modulo 256; [(char)c] reduces an [int]
    to the signed 8-bit range. *)

Definition to_uchar (x : Z) : Z := x mod 256.

Definition to_char (x : Z) : Z := wrap_signed 8 x.

(** [while (count--) *d++ = v;] with [v] the byte [(unsigned char)c]. *)
Fixpoint memset_loop (count : nat) (m : memory) (d v : Z) : memory :=
  match count with
  | O => m
  | S count' => memset_loop count' (store m d v) (d + 1) v
  end.

Definition memset (m : memory) (dest c count : Z) : memory :=
  memset_loop (Z.to_nat count) m dest (to_uchar c).

Definition bzero (m : memory) (s n : Z) : memory := memset m s 0 n.

Fixpoint memcmp_loop (count : nat) (m : memory) (p1 p2 : Z) : Z :=
  match count with
  | O => 0
  | S count' =>
    if negb (to_uchar (m p1) =? to_uchar (m p2))
    then to_uchar (m p1) - to_uchar (m p2)
    else memcmp_loop count' m (p1 + 1) (p2 + 1)
  end.

Definition memcmp (m : memory) (ptr1 ptr2 count : Z) : Z :=
  memcmp_loop (Z.to_nat count) m ptr1 ptr2.

Fixpoint memchr_loop (count : nat) (m : memory) (p c : Z) : Z :=
  match count with
  | O => NULL
  | S count' =>
    if to_uchar (m p) =? to_uchar c then p
    else memchr_loop count' m (p + 1) c
  end.

Definition memchr (m : memory) (ptr c count : Z) : Z :=
  memchr_loop (Z.to_nat count) m ptr c.

(** ** The other string functions

    The loops that run to a terminator have no bound in the source: they
    take fuel, and [None] means that the fuel ran out. *)

Definition strlen (fuel : nat) (m : memory) (str : Z) : option Z :=
  match scan_terminator fuel m str with
  | Some s => Some (s - str)
  | None => None
  end.

Definition wcslen (fuel : nat) (m : memory) (str : Z) : option Z :=
  match scan_terminator fuel m str with
  | Some s => Some (s - str)
  | None => None
  end.

(** [while (( *d++ = *src++));] *)
Fixpoint strcpy_loop (fuel : nat) (m : memory) (d src : Z) : option memory :=
  match fuel with
  | O => None
  | S fuel' =>
    let c := m src in
    let m' := store m d c in
    if c =? 0 then Some m' else strcpy_loop fuel' m' (d + 1) (src + 1)
  end.

Definition strcpy (fuel : nat) (m : memory) (dest src : Z) : option memory :=
  strcpy_loop fuel m dest src.

Definition wcscpy (fuel : nat) (m : memory) (dest src : Z) : option memory :=
  strcpy_loop fuel m dest src.

Definition strcat (fuel : nat) (m : memory) (dest src : Z) : option memory :=
  match scan_terminator fuel m dest with
  | Some d => strcpy_loop fuel m d src
  | None => None
  end.

(** [while ( *str1 && *str1 == *str2) { str1++; str2++; }]
    yields the two pointers. *)
Fixpoint strcmp_loop (fuel : nat) (m : memory) (str1 str2 : Z)
  : option (Z * Z) :=
  match fuel with
  | O => None
  | S fuel' =>
    if negb (m str1 =? 0) && (m str1 =? m str2)
    then strcmp_loop fuel' m (str1 + 1) (str2 + 1)
    else Some (str1, str2)
  end.

Definition strcmp (fuel : nat) (m : memory) (str1 str2 : Z) : option Z :=
  match strcmp_loop fuel m str1 str2 with
  | Some (str1, str2) => Some (to_uchar (m str1) - to_uchar (m str2))
  | None => None
  end.

Definition wcscmp (fuel : nat) (m : memory) (str1 str2 : Z) : option Z :=
  match strcmp_loop fuel m str1 str2 with
  | Some (str1, str2) => Some (m str1 - m str2)
  | None => None
  end.

(** [while (count && *str1 && *str1 == *str2) { str1++; str2++; count--; }]
    yields the two pointers and [count]. *)
Fixpoint strncmp_loop (count : nat) (m : memory) (str1 str2 : Z)
  : Z * Z * nat :=
  match count with
  | O => (str1, str2, O)
  | S count' =>
    if negb (m str1 =? 0) && (m str1 =? m str2)
    then strncmp_loop count' m (str1 + 1) (str2 + 1)
    else (str1, str2, count)
  end.

Definition strncmp (m : memory) (str1 str2 count : Z) : Z :=
  let '(str1, str2, count) := strncmp_loop (Z.to_nat count) m str1 str2 in
  match count with
  | O => 0
  | S _ => to_uchar (m str1) - to_uchar (m str2)
  end.

Definition wcsncmp (m : memory) (str1 str2 count : Z) : Z :=
  let '(str1, str2, count) := strncmp_loop (Z.to_nat count) m str1 str2 in
  match count with
  | O => 0
  | S _ => m str1 - m str2
  end.

(** [x == (char)c], where [x] is the cell that [*str] reads.  A cell holds
    its byte as the [char] value or, where [memset] wrote it, as the
    [unsigned char] value: read as a [char] it is equal to [(char)c] when
    it holds the byte of [(char)c] in one of the two ways. *)
Definition char_eqb (x c : Z) : bool := (x =? to_char c) || (x =? to_uchar c).

Fixpoint strchr_loop (fuel : nat) (m : memory) (str c : Z) : option Z :=
  match fuel with
  | O => None
  | S fuel' =>
    if m str =? 0 then Some (if c =? 0 then str else NULL)
    else if char_eqb (m str) c then Some str
    else strchr_loop fuel' m (str + 1) c
  end.

Definition strchr (fuel : nat) (m : memory) (str c : Z) : option Z :=
  strchr_loop fuel m str c.

(** [wcschr] takes a [wchar_t]: nothing is cast. *)
Fixpoint wcschr (fuel : nat) (m : memory) (str c : Z) : option Z :=
  match fuel with
  | O => None
  | S fuel' =>
    if m str =? 0 then Some (if c =? 0 then str else NULL)
    else if m str =? c then Some str
    else wcschr fuel' m (str + 1) c
  end.

Fixpoint strrchr_loop (fuel : nat) (m : memory) (str c last : Z)
  : option Z :=
  match fuel with
  | O => None
  | S fuel' =>
    if m str =? 0 then Some (if c =? 0 then str else last)
    else
      strrchr_loop fuel' m (str + 1) c
                   (if char_eqb (m str) c then str else last)
  end.

Definition strrchr (fuel : nat) (m : memory) (str c : Z) : option Z :=
  strrchr_loop fuel m str c NULL.












Section Duplicate.
Context {os : Win32}.

Definition strdup (fuel : nat) (st : process Heap) (str : Z)
  : option (Z * process Heap) :=
  match strlen fuel (mem st) str with
  | None => None
  | Some n =>
    let len := to_size_t (n + 1) in
    let (dup, st) := malloc st len in
    if negb (dup =? NULL)
    then Some (dup, mkProcess (heap st) (memcpy (mem st) dup str len))
    else Some (dup, st)
  end.

Definition _strdup (fuel : nat) (st : process Heap) (str : Z)
  : option (Z * process Heap) := strdup fuel st str.

End Duplicate.

(** ** The other character functions *)

Definition isdigit (c : Z) : bool := (c >=? 48) && (c <=? 57).

Definition isalpha (c : Z) : bool :=
  ((c >=? 97) && (c <=? 122)) || ((c >=? 65) && (c <=? 90)).

Definition isalnum (c : Z) : bool := isalpha c || isdigit c.

Definition isupper (c : Z) : bool := (c >=? 65) && (c <=? 90).

Definition islower (c : Z) : bool := (c >=? 97) && (c <=? 122).

Definition isxdigit (c : Z) : bool :=
  isdigit c || ((c >=? 97) && (c <=? 102)) || ((c >=? 65) && (c <=? 70)).

Definition isprint (c : Z) : bool := (c >=? 32) && (c <=? 126).

Definition iscntrl (c : Z) : bool := ((c >=? 0) && (c <? 32)) || (c =? 127).

Definition ispunct (c : Z) : bool :=
  isprint c && negb (isalnum c) && negb (isspace c).

Definition isgraph (c : Z) : bool := isprint c && negb (c =? 32).

Definition tolower (c : Z) : Z :=
  if (c >=? 65) && (c <=? 90) then c + (97 - 65) else c.

Definition toupper (c : Z) : Z :=
  if (c >=? 97) && (c <=? 122) then c - (97 - 65) else c.

(** ** The other utility functions *)

Section Search.

Variable compar : memory -> Z -> Z -> Z.

(** The [while (low < high)] loop of [bsearch].  Each round shrinks the
    interval, so [fuel] above [high - low] is never used up. *)
Fixpoint bsearch_loop (fuel : nat) (m : memory) (key arr size low high : Z)
  : option Z :=
  match fuel with
  | O => None
  | S fuel' =>
    if low <? high then
      let mid := low + (high - low) / 2 in
      let cmp := compar m key (arr + mid * size) in
      if cmp <? 0 then bsearch_loop fuel' m key arr size low mid
      else if cmp >? 0 then bsearch_loop fuel' m key arr size (mid + 1) high
      else Some (arr + mid * size)
    else Some NULL
  end.

Definition bsearch (m : memory) (key base num size : Z) : option Z :=
  let arr := base in
  bsearch_loop (S (Z.to_nat num)) m key arr size 0 num.

End Search.

Definition abs (n : Z) : Z := if n <? 0 then wrap_signed 32 (- n) else n.

Definition labs (n : Z) : Z := if n <? 0 then wrap_signed 32 (- n) else n.

Definition llabs (n : Z) : Z := if n <? 0 then wrap_signed 64 (- n) else n.

(** ** The other conversions *)

Definition atoi (str : list Z) : Z := to_int (fst (strtol str false 10)).

Definition atol (str : list Z) : Z := fst (strtol str false 10).

(** ** The environment *)

Section Environment.
Context {os : Win32}.

(** State of the environment block of the process. *)
Variable Env : Type.

(** [SetEnvironmentVariableA(lpName, lpValue)]: it reads the two strings
    in memory ([lpValue] may be [NULL]) and reports success. *)
Variable SetEnvironmentVariableA : Env -> memory -> Z -> Z -> bool * Env.

(** The result is the status, the process and the environment. *)
Definition _putenv (fuel : nat) (st : process Heap) (env : Env)
           (envstring : Z) : option (Z * process Heap * Env) :=
  match strchr fuel (mem st) envstring 61 with
  | None => None
  | Some eq =>
    if eq =? NULL then Some (-1, st, env)
    else
      let namelen := to_size_t (eq - envstring) in
      let (name, st) := malloc st (to_size_t (namelen + 1)) in
      if name =? NULL then Some (-1, st, env)
      else
        let m := memcpy (mem st) name envstring namelen in
        let m := store m (name + namelen) 0 in
        let value := eq + 1 in
        let (result, env) :=
          SetEnvironmentVariableA env m name
            (if negb (m value =? 0) then value else NULL) in
        let st := free (mkProcess (heap st) m) name in
        Some (if result then 0 else -1, st, env)
  end.

End Environment.

(** ** Example platforms

    Two small instances of the platform, used to run the definitions on
    concrete inputs.  The heap of the first is a bump allocator whose state
    is the next free address; the second has no memory left.  Both convert
    ASCII only. *)

Definition bump_HeapAlloc (h flags bytes : Z) : Z * Z := (h, h + bytes).

Definition bump_HeapFree (h p : Z) : Z := h.

Definition bump_HeapReAlloc (st : process Z) (flags p bytes : Z)
  : Z * process Z :=
  (heap st,
   mkProcess (heap st + bytes)
     (copy_forward (Z.to_nat bytes) (mem st) (heap st) p)).

Definition exhausted_HeapAlloc (h flags bytes : Z) : Z * Z := (NULL, h).

Definition exhausted_HeapReAlloc (st : process Z) (flags p bytes : Z)
  : Z * process Z := (NULL, st).

Definition ascii_WideCharToMultiByte
  (m : memory) (cp flags : Z) (src : list Z) (cch dst cb dflt used : Z)
  : Z * memory :=
  match src with
  | [wc] =>
    if (0 <=? wc) && (wc <? 128) && (1 <=? cb) then (1, store m dst wc)
    else (0, m)
  | _ => (0, m)
  end.

Definition ascii_MultiByteToWideChar
  (m : memory) (cp flags src cb dst cch : Z) : Z * memory :=
  if (1 <=? cb) && (0 <=? m src) && (m src <? 128) && (1 <=? cch)
  then (1, store m dst (m src))
  else (0, m).

Definition bump64 : Win32 :=
  {| sizeof_ptr := 8;
     sizeof_ptr_pos := eq_refl;
     Heap := Z;
     HeapAlloc := bump_HeapAlloc;
     HeapFree := bump_HeapFree;
     HeapReAlloc := bump_HeapReAlloc;
     WideCharToMultiByte := ascii_WideCharToMultiByte;
     MultiByteToWideChar := ascii_MultiByteToWideChar;
     iswspace := isspace;
     iswspace_NUL := eq_refl |}.

Definition exhausted64 : Win32 :=
  {| sizeof_ptr := 8;
     sizeof_ptr_pos := eq_refl;
     Heap := Z;
     HeapAlloc := exhausted_HeapAlloc;
     HeapFree := bump_HeapFree;
     HeapReAlloc := exhausted_HeapReAlloc;
     WideCharToMultiByte := ascii_WideCharToMultiByte;
     MultiByteToWideChar := ascii_MultiByteToWideChar;
     iswspace := isspace;
     iswspace_NUL := eq_refl |}.

(** Inputs for the examples.  [short_source]: the string ["a"] at 200 and
    the value 9 in every other cell, so that a write is visible.
    [two_strings]: ["ab"] at 100 and ["cdef"] at 200.  [overlapping]: the
    cells 1 to 5 from 100 on.  [keyed_array]: four two-cell elements
    (key, tag) from 100 on; [compar_key] compares the keys only, and
    [cmp_key] is the same comparison on the elements themselves. *)
Definition short_source : memory := write_list (fun _ => 9) 200 [97; 0].

Definition two_strings : memory :=
  write_list (write_list (fun _ => 9) 200 [99; 100; 101; 102; 0])
             100 [97; 98; 0].

Definition overlapping : memory := write_list (fun _ => 0) 100 [1; 2; 3; 4; 5].

Definition keyed_array : memory :=
  write_list (fun _ => 0) 100 [2; 0; 1; 0; 2; 1; 1; 1].

Definition compar_key (m : memory) (p q : Z) : Z := m p - m q.

Definition cmp_key (x y : list Z) : Z := hd 0 x - hd 0 y.

(** ** Vocabulary of the statements *)

(** The [n] cells from [s] on are all non-zero: the string at [s] has at
    least [n] elements. *)
Definition nonzero_run (m : memory) (s n : Z) : Prop :=
  forall i, 0 <= i < n -> m (s + i) <> 0.

(** The string at [s] has exactly [len] elements before its terminator. *)
Definition cstring (m : memory) (s len : Z) : Prop :=
  0 <= len /\ nonzero_run m s len /\ m (s + len) = 0.

(** [c] is a digit of base [base]: what the conversion loop consumes. *)
Definition is_digit_in (base c : Z) : bool :=
  negb (c =? 0) &&
  match digit_value c with
  | Some digit => negb (digit >=? base)
  | None => false
  end.

(** The three parsers are one algorithm, with the width of the accumulator
    and the whitespace test as its parameters. *)
Definition parse_with (bits : Z) (space : Z -> bool)
           (str : list Z) (endptr : bool) (base : Z) : Z * option nat :=
  let p := skip_spaces space str 0 in
  let '(negative, p) := parse_sign str p in
  let '(base, p) := detect_base base str p in
  let '(result, p) := convert bits base (skipn p str) 0 p in
  (if negative then wrap_signed bits (- result) else result,
   if endptr then Some p else None).

(** Whether the sign characters [sg] make the number negative. *)
Definition is_negative (sg : list Z) : bool :=
  match sg with
  | 45 :: _ => true
  | _ => false
  end.

(** The last two steps of a parser: the conversion in base [base] of the
    cells [rest], which start at offset [p], and the result and the
    end-pointer reported from it. *)
Definition parse_digits (bits base : Z) (negative endptr : bool)
           (rest : list Z) (p : nat) : Z * option nat :=
  let '(result, p) := convert bits base rest 0 p in
  (if negative then wrap_signed bits (- result) else result,
   if endptr then Some p else None).

(** The number of characters the conversion loop consumed. *)
Definition digits_consumed (bits : Z) (space : Z -> bool)
           (str : list Z) (base : Z) : nat :=
  let '(b, p) := digits_start space str base in
  (snd (convert bits b (skipn p str) 0 p) - p)%nat.

(** What a parser [parse] does with the end-pointer: it is written only
    when requested; it is the offset where the digits start plus the number
    of digits consumed; the characters in between are digits of the
    selected base and the one it designates is not; and when no digit was
    consumed the result is zero. *)
Definition end_pointer_spec
           (parse : list Z -> bool -> Z -> Z * option nat)
           (bits : Z) (space : Z -> bool) : Prop :=
  forall (str : list Z) (base : Z),
    let b := fst (digits_start space str base) in
    let p := snd (digits_start space str base) in
    let nd := digits_consumed bits space str base in
    snd (parse str false base) = None /\
    snd (parse str true base) = Some (p + nd)%nat /\
    Forall (fun c => is_digit_in b c = true) (firstn nd (skipn p str)) /\
    is_digit_in b (char_at str (p + nd)) = false /\
    (snd (parse str true base) = Some O <-> p = O /\ nd = O) /\
    (nd = O -> forall endptr, fst (parse str endptr base) = 0).


Section Contract.
Context {os : Win32}.


End Contract.

(** The array of [num] elements of [size] cells at [arr], as the list of
    its elements. *)
Definition elements (m : memory) (arr size : Z) (num : nat) : list (list Z) :=
  map (fun i => load_range m (arr + Z.of_nat i * size) (Z.to_nat size))
      (seq 0 num).

(** A comparator [compar] reads the two elements it is pointed at and
    nothing else: it is a function [cmp] of them. *)
Definition compar_reads (compar : memory -> Z -> Z -> Z)
           (cmp : list Z -> list Z -> Z) (size : Z) : Prop :=
  forall m p q,
    compar m p q
    = cmp (load_range m p (Z.to_nat size)) (load_range m q (Z.to_nat size)).

(** The order [cmp x y <= 0] is a total preorder, and [cmp] reports it
    with the sign conventions of a C comparator. *)
Record total_preorder (cmp : list Z -> list Z -> Z) : Prop := {
  cmp_flip : forall x y, cmp x y < 0 <-> 0 < cmp y x;
  cmp_trans : forall x y z, cmp x y <= 0 -> cmp y z <= 0 -> cmp x z <= 0
}.

(** The functional view of the sort.  The sorted prefix is kept reversed,
    its last element first: one round of the inner loop walks down from
    the end of the prefix past the elements ordered greater than [x]. *)
Fixpoint insert_rev (cmp : list Z -> list Z -> Z) (x : list Z)
         (r : list (list Z)) : list (list Z) :=
  match r with
  | [] => [x]
  | y :: r' => if cmp y x >? 0 then y :: insert_rev cmp x r' else x :: r
  end.

Definition isort_rev (cmp : list Z -> list Z -> Z)
           (r rest : list (list Z)) : list (list Z) :=
  fold_left (fun r x => insert_rev cmp x r) rest r.

(** The string at [s] is [l]: the cells from [s] on hold the elements of
    [l], none of them zero, and then a terminator. *)
Fixpoint string_at (m : memory) (s : Z) (l : list Z) : Prop :=
  match l with
  | [] => m s = 0
  | c :: l' => m s = c /\ c <> 0 /\ string_at m (s + 1) l'
  end.

(** A value in the range of a [char]. *)
Definition is_char (c : Z) : Prop := -128 <= c <= 127.

(** A byte, held as a [char] value or as an [unsigned char] value. *)
Definition is_byte (c : Z) : Prop := -128 <= c <= 255.


(** The array is sorted as a search for a key needs it: [f i] is the
    result of comparing the key with the element of index [i]; once the
    key is ordered before an element it is ordered before all later ones,
    and once it is ordered after an element it is ordered after all
    earlier ones. *)
Definition key_sorted (f : Z -> Z) (num : Z) : Prop :=
  forall i j, 0 <= i <= j -> j < num ->
              (f i < 0 -> f j < 0) /\ (0 < f j -> 0 < f i).

(** The value of the digits [ds] in base [base], without any wrapping,
    from the accumulator [acc] on. *)
Fixpoint digits_value (base : Z) (ds : list Z) (acc : Z) : Z :=
  match ds with
  | [] => acc
  | c :: ds' =>
    match digit_value c with
    | Some digit => digits_value base ds' (acc * base + digit)
    | None => acc
    end
  end.

(** The value [v] with the sign that the sign characters [sg] give it. *)
Definition with_sign (sg : list Z) (v : Z) : Z :=
  match sg with
  | 45 :: _ => - v
  | _ => v
  end.

(** More inputs for the examples: an array of four one-cell elements in
    increasing order from 100 on; the string ["A=b"] at 100; and an
    environment primitive that counts its calls. *)
Definition sorted_bytes : memory := write_list (fun _ => 0) 100 [1; 3; 5; 7].

(** Two bytes above 127 and a terminator at 100, as [memset] leaves them. *)
Definition high_bytes : memory := memset (fun _ => 0) 100 200 2.

Definition env_string : memory := write_list (fun _ => 0) 100 [65; 61; 98; 0].

Definition counting_SetEnvironmentVariableA
           (env : nat) (m : memory) (name value : Z) : bool * nat :=
  (true, S env).

(** * Properties *)

(** ** Memory *)

Lemma store_same m a v : store m a v a = v.
Proof. unfold store. now rewrite Z.eqb_refl. Qed.

Lemma store_other m a v x : x <> a -> store m a v x = m x.
Proof. unfold store. intros H. apply Z.eqb_neq in H. now rewrite H. Qed.

Lemma load_range_ext m m' a b n :
  (forall i, 0 <= i < Z.of_nat n -> m' (a + i) = m (b + i)) ->
  load_range m' a n = load_range m b n.
Proof.
  revert a b; induction n as [|n IH]; intros a b H; [reflexivity|].
  cbn [load_range]. f_equal.
  - specialize (H 0). rewrite !Z.add_0_r in H. apply H. lia.
  - apply IH. intros i Hi.
    replace (a + 1 + i) with (a + (1 + i)) by lia.
    replace (b + 1 + i) with (b + (1 + i)) by lia.
    apply H. lia.
Qed.

(** ** Heap functions *)

Section HeapProperties.
Context {os : Win32}.

Lemma SIZE_MOD_pos : 0 < SIZE_MOD.
Proof.
  unfold SIZE_MOD. apply Z.pow_pos_nonneg; [lia|].
  pose proof sizeof_ptr_pos. lia.
Qed.

Lemma to_size_t_small x : 0 <= x < SIZE_MOD -> to_size_t x = x.
Proof. intros H. unfold to_size_t. now apply Z.mod_small. Qed.

Lemma to_size_t_pred x : to_size_t (to_size_t x - 1) = to_size_t (x - 1).
Proof. unfold to_size_t. apply Zminus_mod_idemp_l. Qed.

(** A stored value is read back from its own cell whatever is stored
    above it. *)
Lemma store_bytes_below n m a v x :
  x < a -> store_bytes n m a v x = m x.
Proof.
  revert m a v; induction n as [|n IH]; intros m a v Hx; [reflexivity|].
  cbn [store_bytes]. rewrite IH by lia. apply store_other. lia.
Qed.

Lemma load_store_bytes n m a v :
  0 <= v < 256 ^ Z.of_nat n ->
  load_bytes n (store_bytes n m a v) a = v.
Proof.
  revert m a v; induction n as [|n IH]; intros m a v Hv.
  - cbn in *. lia.
  - cbn [store_bytes load_bytes].
    rewrite store_bytes_below by lia. rewrite store_same.
    rewrite Nat2Z.inj_succ, Z.pow_succ_r in Hv by lia.
    rewrite IH.
    + pose proof (Z.div_mod v 256). lia.
    + split; [apply Z.div_pos; lia|].
      apply Z.div_lt_upper_bound; lia.
Qed.

Lemma load_store_ptr m a v :
  0 <= v < SIZE_MOD -> load_ptr (store_ptr m a v) a = v.
Proof.
  intros Hv. unfold load_ptr, store_ptr. apply load_store_bytes.
  pose proof sizeof_ptr_pos.
  rewrite Z2Nat.id by lia. unfold SIZE_MOD in Hv.
  replace (8 * sizeof_ptr) with (sizeof_ptr * 8) in Hv by lia.
  rewrite Z.pow_mul_r in Hv by lia.
  replace (256 ^ sizeof_ptr) with ((2 ^ 8) ^ sizeof_ptr); [|reflexivity].
  rewrite <- Z.pow_mul_r by lia. rewrite <- Z.pow_mul_r in Hv by lia.
  replace (8 * sizeof_ptr) with (sizeof_ptr * 8) by lia.
  exact Hv.
Qed.

(** [x & ~(2^k - 1)] in [size_t] arithmetic rounds [x] down to a multiple
    of [2^k]. *)
Lemma land_not_mask x k :
  0 <= k -> 2 ^ k <= SIZE_MOD -> 0 <= x < SIZE_MOD ->
  Z.land x (to_size_t (Z.lnot (to_size_t (2 ^ k - 1)))) = x - x mod 2 ^ k.
Proof.
  intros Hk Hle Hx.
  assert (Hw : 0 <= 8 * sizeof_ptr) by (pose proof sizeof_ptr_pos; lia).
  assert (H2k : 0 < 2 ^ k) by (apply Z.pow_pos_nonneg; lia).
  rewrite (to_size_t_small (2 ^ k - 1)) by lia.
  unfold to_size_t, SIZE_MOD in *.
  rewrite <- Z.land_ones by lia.
  rewrite Z.land_assoc, (Z.land_comm x), <- Z.land_assoc.
  rewrite (Z.land_ones x) by lia. rewrite (Z.mod_small x) by lia.
  replace (2 ^ k - 1) with (Z.ones k) by (rewrite Z.ones_equiv; lia).
  rewrite Z.land_comm, <- Z.ldiff_land, Z.ldiff_ones_r by lia.
  rewrite Z.shiftr_div_pow2, Z.shiftl_mul_pow2 by lia.
  pose proof (Z.div_mod x (2 ^ k)). lia.
Qed.

Lemma free_nonnull (st : process Heap) p :
  p <> NULL -> free st p = mkProcess (HeapFree (heap st) p) (mem st).
Proof.
  intros Hp. unfold free. apply Z.eqb_neq in Hp. now rewrite Hp.
Qed.

(** C6: [realloc] with a null block is [malloc], with the same result and
    the same effect on the heap; [realloc] of a non-null block [p] to size
    zero releases [p] (as [free] does, through [HeapFree]) and returns
    null. *)
Theorem realloc_null_and_zero (st : process Heap) (n p : Z) :
  realloc st NULL n = malloc st n /\
  (p <> NULL ->
   realloc st p 0 = (NULL, free st p) /\
   heap (free st p) = HeapFree (heap st) p /\
   mem (free st p) = mem st).
Proof.
  split; [reflexivity|]. intros Hp.
  rewrite free_nonnull by assumption. cbn [heap mem].
  unfold realloc. apply Z.eqb_neq in Hp. rewrite Hp. auto.
Qed.

(** C7: when the base allocation of [size + alignment + sizeof_ptr] bytes
    succeeds at [raw], [_aligned_malloc] returns the least multiple of
    the alignment that is at least [raw + sizeof_ptr]; the pointer stored
    just before the payload is [raw]; the payload and its [size] bytes
    lie inside the block; and [_aligned_free] of the payload releases
    [raw]. *)
Theorem aligned_malloc_header (st : process Heap) (size k raw : Z) (h : Heap) :
  0 <= size -> 0 <= k ->
  size + 2 ^ k + sizeof_ptr < SIZE_MOD ->
  HeapAlloc (heap st) 0 (size + 2 ^ k + sizeof_ptr) = (raw, h) ->
  0 < raw -> raw + (size + 2 ^ k + sizeof_ptr) <= SIZE_MOD ->
  exists payload st',
    _aligned_malloc st size (2 ^ k) = (payload, st') /\
    raw + sizeof_ptr <= payload /\
    payload mod 2 ^ k = 0 /\
    (forall q, raw + sizeof_ptr <= q -> q mod 2 ^ k = 0 -> payload <= q) /\
    load_ptr (mem st') (payload - sizeof_ptr) = raw /\
    raw <= payload - sizeof_ptr /\
    payload + size <= raw + (size + 2 ^ k + sizeof_ptr) /\
    _aligned_free st' payload = mkProcess (HeapFree h raw) (mem st').
Proof.
  intros Hsize Hk Htotal Halloc Hraw Hfit.
  pose proof sizeof_ptr_pos as Hpsz.
  assert (HA : 0 < 2 ^ k) by (apply Z.pow_pos_nonneg; lia).
  set (A := 2 ^ k) in *.
  set (x := raw + sizeof_ptr + A - 1).
  set (payload := x - x mod A).
  pose proof (Z.mod_pos_bound x A HA) as Hmod.
  assert (Hlow : raw + sizeof_ptr <= payload) by (subst payload x; lia).
  exists payload,
    (mkProcess h (store_ptr (mem st) (payload - sizeof_ptr) raw)).
  assert (Hal : _aligned_malloc st size A
                = (payload,
                   mkProcess h (store_ptr (mem st) (payload - sizeof_ptr) raw))).
  { unfold _aligned_malloc, malloc.
    rewrite (to_size_t_small (size + A)) by lia.
    rewrite (to_size_t_small (size + A + sizeof_ptr)) by lia.
    replace (size + A + sizeof_ptr =? 0) with false
      by (symmetry; apply Z.eqb_neq; lia).
    rewrite Halloc.
    replace (raw =? NULL) with false
      by (symmetry; apply Z.eqb_neq; unfold NULL; lia).
    rewrite (to_size_t_small (raw + sizeof_ptr)) by lia.
    rewrite to_size_t_pred.
    rewrite (to_size_t_small (raw + sizeof_ptr + A - 1)) by lia.
    cbn [heap mem]. subst payload x A.
    rewrite land_not_mask by lia. reflexivity. }
  split; [exact Hal|].
  split; [exact Hlow|].
  assert (Hmul : payload = A * (x / A))
    by (subst payload; pose proof (Z.div_mod x A); lia).
  split.
  { rewrite Hmul, Z.mul_comm. apply Z.mod_mul. lia. }
  split.
  { intros q Hq Hqm.
    assert (Hqmul : q = A * (q / A)) by (pose proof (Z.div_mod q A); lia).
    destruct (Z_lt_le_dec q payload) as [Hlt|]; [exfalso | assumption].
    assert (q / A < x / A) by nia.
    assert (q <= payload - A) by nia.
    subst payload x. lia. }
  cbn [mem].
  split; [apply load_store_ptr; lia|].
  split; [lia|].
  split; [subst payload x; lia|].
  unfold _aligned_free. cbn [mem].
  replace (payload =? NULL) with false
    by (symmetry; apply Z.eqb_neq; unfold NULL; lia).
  cbn [negb]. rewrite load_store_ptr by lia.
  apply free_nonnull. unfold NULL. lia.
Qed.

End HeapProperties.

(** The request of [_aligned_malloc] is computed in [size_t] arithmetic and
    nothing checks it for overflow: for a size within 8 of [SIZE_MAX] and
    alignment 16 the block requested has 16 bytes. *)
Example aligned_malloc_request_wraps :
  heap (snd (_aligned_malloc (os := bump64)
               (mkProcess (4096 : @Heap bump64) (fun _ => 0))
               (2 ^ 64 - 8) 16))
  = 4096 + 16.
Proof. reflexivity. Qed.

(** ** Memory functions *)

(** Cells outside the destination range are left alone. *)
Lemma copy_forward_frame n m d s x :
  x < d \/ d + Z.of_nat n <= x -> copy_forward n m d s x = m x.
Proof.
  revert m d s; induction n as [|k IH]; intros m d s Hx; [reflexivity|].
  cbn [copy_forward]. rewrite IH by lia. apply store_other. lia.
Qed.

(** The forward loop is right when the destination is not above the
    source, or lies wholly above it: no cell is overwritten before it is
    read. *)
Lemma copy_forward_content n m d s i :
  d <= s \/ s + Z.of_nat n <= d -> 0 <= i < Z.of_nat n ->
  copy_forward n m d s (d + i) = m (s + i).
Proof.
  revert m d s i; induction n as [|k IH]; intros m d s i Hds Hi; [lia|].
  cbn [copy_forward].
  destruct (Z.eq_dec i 0) as [->|Hne].
  - rewrite !Z.add_0_r, copy_forward_frame by lia. apply store_same.
  - replace (d + i) with (d + 1 + (i - 1)) by lia.
    rewrite IH by lia. rewrite store_other by lia. f_equal. lia.
Qed.

Lemma copy_backward_frame n m d s x :
  x < d - Z.of_nat n \/ d <= x -> copy_backward n m d s x = m x.
Proof.
  revert m d s; induction n as [|k IH]; intros m d s Hx; [reflexivity|].
  cbn [copy_backward]. rewrite IH by lia. apply store_other. lia.
Qed.

(** The backward loop, entered with both pointers one past the end, is
    right when the destination is not below the source. *)
Lemma copy_backward_content n m d s i :
  s <= d -> 0 < i <= Z.of_nat n ->
  copy_backward n m d s (d - i) = m (s - i).
Proof.
  revert m d s i; induction n as [|k IH]; intros m d s i Hds Hi; [lia|].
  cbn [copy_backward].
  destruct (Z.eq_dec i 1) as [->|Hne].
  - rewrite copy_backward_frame by lia. apply store_same.
  - replace (d - i) with (d - 1 - (i - 1)) by lia.
    rewrite IH by lia. rewrite store_other by lia. f_equal. lia.
Qed.

(** Non-overlapping ranges: [memcpy] copies the source range and touches
    nothing else. *)
Lemma memcpy_frame m d s n x :
  x < d \/ d + n <= x -> memcpy m d s n x = m x.
Proof. intros Hx. unfold memcpy. apply copy_forward_frame. lia. Qed.

Lemma memcpy_content m d s n i :
  d + n <= s \/ s + n <= d -> 0 <= i < n ->
  memcpy m d s n (d + i) = m (s + i).
Proof. intros Hdis Hi. unfold memcpy. apply copy_forward_content; lia. Qed.

(** C5: after [memmove] the destination range holds the sequence the source
    range held before the call, whatever the overlap, and no other cell
    has changed; the copy runs forward when the destination is below the
    source and backward when it is above; when the two coincide the
    memory is returned as it was. *)
Theorem memmove_overlap (m : memory) (dest src count : Z) :
  load_range (memmove m dest src count) dest (Z.to_nat count)
  = load_range m src (Z.to_nat count) /\
  (forall x, x < dest \/ dest + count <= x ->
             memmove m dest src count x = m x) /\
  (dest < src ->
   memmove m dest src count = copy_forward (Z.to_nat count) m dest src) /\
  (dest > src ->
   memmove m dest src count
   = copy_backward (Z.to_nat count) m (dest + count) (src + count)) /\
  (dest = src -> memmove m dest src count = m).
Proof.
  unfold memmove.
  destruct (Z.ltb_spec dest src) as [Hlt|Hge].
  - repeat split; try lia.
    + apply load_range_ext. intros i Hi. apply copy_forward_content; lia.
    + intros x Hx. apply copy_forward_frame. lia.
  - destruct (Z.gtb_spec dest src) as [Hgt|Hle].
    + repeat split; try lia.
      * apply load_range_ext. intros i Hi.
        replace (dest + i) with (dest + count - (count - i)) by lia.
        replace (src + i) with (src + count - (count - i)) by lia.
        apply copy_backward_content; lia.
      * intros x Hx. apply copy_backward_frame. lia.
    + assert (dest = src) by lia. subst src.
      repeat split; try lia; reflexivity.
Qed.

(** ** String functions *)

Lemma nonzero_run_step m s n :
  0 < n -> nonzero_run m s n ->
  m s <> 0 /\ forall d v, (d < s + 1 \/ s + n <= d) ->
                          nonzero_run (store m d v) (s + 1) (n - 1).
Proof.
  intros Hn Hrun. split.
  - specialize (Hrun 0). rewrite Z.add_0_r in Hrun. apply Hrun. lia.
  - intros d v Hd i Hi. rewrite store_other by lia.
    replace (s + 1 + i) with (s + (1 + i)) by lia. apply Hrun. lia.
Qed.

(** When the source has at least [count] elements the first loop of
    [strncpy] is a plain copy of [count] cells and leaves [count] at 0. *)
Lemma strncpy_copy_long count m d src :
  nonzero_run m src (Z.of_nat count) ->
  d <= src \/ src + Z.of_nat count <= d ->
  strncpy_copy count m d src
  = (copy_forward count m d src, d + Z.of_nat count, O).
Proof.
  revert m d src; induction count as [|k IH]; intros m d src Hrun Hds.
  - cbn. now rewrite Z.add_0_r.
  - apply nonzero_run_step in Hrun as [H0 Hrun]; [|lia].
    cbn [strncpy_copy copy_forward].
    apply Z.eqb_neq in H0. rewrite H0.
    rewrite IH.
    + f_equal. f_equal. lia.
    + replace (Z.of_nat k) with (Z.of_nat (S k) - 1) by lia.
      apply Hrun. lia.
    + lia.
Qed.

(** When the source has [len < count] elements the first loop copies them
    and the terminator, which it does not count. *)
Lemma strncpy_copy_short len count m d src :
  (len < count)%nat ->
  cstring m src (Z.of_nat len) ->
  d <= src \/ src + Z.of_nat len < d ->
  strncpy_copy count m d src
  = (copy_forward (S len) m d src, d + Z.of_nat (S len), (count - len)%nat).
Proof.
  revert count m d src; induction len as [|k IH];
    intros count m d src Hlt (_ & Hrun & Hend) Hds;
    (destruct count as [|count]; [lia|]); cbn [strncpy_copy copy_forward].
  - change (Z.of_nat 0) with 0 in Hend. rewrite Z.add_0_r in Hend.
    rewrite Hend. cbn. reflexivity.
  - apply nonzero_run_step in Hrun as [H0 Hrun]; [|lia].
    apply Z.eqb_neq in H0. rewrite H0.
    rewrite IH.
    + f_equal. f_equal. lia.
    + lia.
    + split; [lia|]. split.
      * replace (Z.of_nat k) with (Z.of_nat (S k) - 1) by lia.
        apply Hrun. lia.
      * rewrite store_other by lia. rewrite <- Hend. f_equal. lia.
    + lia.
Qed.

Lemma strncpy_pad_frame count m d x :
  x < d \/ d + Z.of_nat count <= x -> strncpy_pad count m d x = m x.
Proof.
  revert m d; induction count as [|k IH]; intros m d Hx; [reflexivity|].
  cbn [strncpy_pad]. rewrite IH by lia. apply store_other. lia.
Qed.

Lemma strncpy_pad_content count m d i :
  0 <= i < Z.of_nat count -> strncpy_pad count m d (d + i) = 0.
Proof.
  revert m d i; induction count as [|k IH]; intros m d i Hi; [lia|].
  cbn [strncpy_pad].
  destruct (Z.eq_dec i 0) as [->|Hne].
  - rewrite Z.add_0_r, strncpy_pad_frame by lia. apply store_same.
  - replace (d + i) with (d + 1 + (i - 1)) by lia. apply IH. lia.
Qed.

(** The part of the contract of [strncpy] and [wcsncpy] that the code
    keeps: a source of at least [n] elements has exactly its first [n]
    elements copied, nothing else is written and no terminator is added. *)
Lemma strncpy_long_source (m : memory) (dest src n : Z) :
  0 <= n -> nonzero_run m src n ->
  dest <= src \/ src + n <= dest ->
  (forall i, 0 <= i < n -> strncpy m dest src n (dest + i) = m (src + i)) /\
  (forall x, x < dest \/ dest + n <= x -> strncpy m dest src n x = m x) /\
  wcsncpy m dest src n = strncpy m dest src n.
Proof.
  intros Hn Hrun Hds. unfold wcsncpy, strncpy.
  rewrite strncpy_copy_long by (rewrite Z2Nat.id; assumption || lia).
  cbn [strncpy_pad]. repeat split.
  - intros i Hi. apply copy_forward_content; lia.
  - intros x Hx. apply copy_forward_frame. lia.
Qed.

(** C1: with a source of [len < n] elements, [strncpy] and [wcsncpy] copy
    the [len] elements and then store terminators in the cells [len] to
    [n] inclusive: [n + 1] cells are written, the last of them the cell at
    index [n], one past the bound. *)
Theorem strncpy_short_source_overrun (m : memory) (dest src n len : Z) :
  cstring m src len -> len < n ->
  dest <= src \/ src + len < dest ->
  (forall i, 0 <= i < len -> strncpy m dest src n (dest + i) = m (src + i)) /\
  (forall i, len <= i <= n -> strncpy m dest src n (dest + i) = 0) /\
  (forall x, x < dest \/ dest + n < x -> strncpy m dest src n x = m x) /\
  wcsncpy m dest src n = strncpy m dest src n.
Proof.
  intros Hstr Hlt Hds.
  assert (Hlen : 0 <= len) by apply Hstr.
  assert (Hend : m (src + len) = 0) by apply Hstr.
  unfold wcsncpy, strncpy.
  rewrite (strncpy_copy_short (Z.to_nat len))
    by (rewrite ?Z2Nat.id by lia; assumption || lia).
  repeat split.
  - intros i Hi. rewrite strncpy_pad_frame by lia.
    apply copy_forward_content; lia.
  - intros i Hi. destruct (Z.eq_dec i len) as [->|Hne].
    + rewrite strncpy_pad_frame by lia.
      rewrite copy_forward_content by lia. exact Hend.
    + replace (dest + i)
        with (dest + Z.of_nat (S (Z.to_nat len)) + (i - len - 1)) by lia.
      apply strncpy_pad_content. lia.
  - intros x Hx. rewrite strncpy_pad_frame by lia.
    apply copy_forward_frame. lia.
Qed.

Section StringProperties.
Context {os : Win32}.

Lemma scan_terminator_cstring len fuel m d :
  cstring m d (Z.of_nat len) -> (len < fuel)%nat ->
  scan_terminator fuel m d = Some (d + Z.of_nat len).
Proof.
  revert fuel d; induction len as [|k IH];
    intros fuel d (_ & Hrun & Hend) Hfuel;
    (destruct fuel as [|fuel]; [lia|]); cbn [scan_terminator].
  - change (Z.of_nat 0) with 0 in *. rewrite Z.add_0_r in *.
    now rewrite Hend.
  - assert (H0 : m d <> 0).
    { specialize (Hrun 0). rewrite Z.add_0_r in Hrun. apply Hrun. lia. }
    apply Z.eqb_neq in H0. rewrite H0. rewrite IH.
    + f_equal. lia.
    + split; [lia|]. split.
      * intros i Hi. replace (d + 1 + i) with (d + (1 + i)) by lia.
        apply Hrun. lia.
      * rewrite <- Hend. f_equal. lia.
    + lia.
Qed.

(** When the source has at least [count] elements the loop of [strncat]
    copies [count] cells and leaves through [count--] at zero. *)
Lemma strncat_copy_long count m d src :
  nonzero_run m src (Z.of_nat count) ->
  d <= src \/ src + Z.of_nat count <= d ->
  strncat_copy count m d src
  = (copy_forward count m d src, d + Z.of_nat count, SIZE_MAX).
Proof.
  revert m d src; induction count as [|k IH]; intros m d src Hrun Hds.
  - cbn. now rewrite Z.add_0_r.
  - apply nonzero_run_step in Hrun as [H0 Hrun]; [|lia].
    cbn [strncat_copy copy_forward].
    apply Z.eqb_neq in H0. rewrite H0.
    rewrite IH.
    + f_equal. f_equal. lia.
    + replace (Z.of_nat k) with (Z.of_nat (S k) - 1) by lia.
      apply Hrun. lia.
    + lia.
Qed.

(** When the source has [len < count] elements the loop copies them and
    the terminator and leaves through the copied terminator. *)
Lemma strncat_copy_short len count m d src :
  (len < count)%nat ->
  cstring m src (Z.of_nat len) ->
  d <= src \/ src + Z.of_nat len < d ->
  strncat_copy count m d src
  = (copy_forward (S len) m d src, d + Z.of_nat (S len),
     Z.of_nat (count - len - 1)).
Proof.
  revert count m d src; induction len as [|k IH];
    intros count m d src Hlt (_ & Hrun & Hend) Hds;
    (destruct count as [|count]; [lia|]); cbn [strncat_copy copy_forward].
  - change (Z.of_nat 0) with 0 in Hend. rewrite Z.add_0_r in Hend.
    rewrite Hend. cbn [Z.eqb]. do 2 f_equal. lia.
  - apply nonzero_run_step in Hrun as [H0 Hrun]; [|lia].
    apply Z.eqb_neq in H0. rewrite H0.
    rewrite IH.
    + do 2 f_equal. lia.
    + lia.
    + split; [lia|]. split.
      * replace (Z.of_nat k) with (Z.of_nat (S k) - 1) by lia.
        apply Hrun. lia.
      * rewrite store_other by lia. rewrite <- Hend. f_equal. lia.
    + lia.
Qed.

(** The case [strncat] gets right: a source shorter than [n] is appended
    whole, with its terminator. *)
Lemma strncat_short_source
      (fuel : nat) (m : memory) (dest src n len slen : Z) :
  cstring m dest len -> (Z.to_nat len < fuel)%nat ->
  cstring m src slen -> slen < n <= SIZE_MAX ->
  dest + len <= src \/ src + slen < dest + len ->
  exists m',
    strncat fuel m dest src n = Some m' /\
    (forall i, 0 <= i < slen -> m' (dest + len + i) = m (src + i)) /\
    m' (dest + len + slen) = 0 /\
    (forall x, x < dest + len \/ dest + len + slen < x -> m' x = m x).
Proof.
  intros Hdest Hfuel Hsrc Hn Hds.
  assert (Hlen : 0 <= len) by apply Hdest.
  assert (Hslen : 0 <= slen) by apply Hsrc.
  assert (Hend : m (src + slen) = 0) by apply Hsrc.
  unfold strncat.
  rewrite (scan_terminator_cstring (Z.to_nat len))
    by (rewrite ?Z2Nat.id by lia; assumption).
  rewrite Z2Nat.id by lia.
  rewrite (strncat_copy_short (Z.to_nat slen))
    by (rewrite ?Z2Nat.id by lia; assumption || lia).
  replace (Z.of_nat (Z.to_nat n - Z.to_nat slen - 1) =? SIZE_MAX) with false
    by (symmetry; apply Z.eqb_neq; lia).
  eexists. split; [reflexivity|]. repeat split.
  - intros i Hi. apply copy_forward_content; lia.
  - rewrite copy_forward_content by lia. exact Hend.
  - intros x Hx. apply copy_forward_frame. lia.
Qed.

(** With [n = 0] nothing is appended and the terminator is stored over the
    last element of the destination. *)
Lemma strncat_zero_count (fuel : nat) (m : memory) (dest src len : Z) :
  cstring m dest len -> (Z.to_nat len < fuel)%nat ->
  strncat fuel m dest src 0 = Some (store m (dest + len - 1) 0).
Proof.
  intros Hdest Hfuel.
  assert (Hlen : 0 <= len) by apply Hdest.
  unfold strncat.
  rewrite (scan_terminator_cstring (Z.to_nat len))
    by (rewrite ?Z2Nat.id by lia; assumption).
  rewrite Z2Nat.id by lia. cbn [Z.to_nat strncat_copy].
  now rewrite Z.eqb_refl.
Qed.

(** C2: with a source of at least [n] elements [strncat] appends [n]
    elements and then stores the terminator over the last of them,
    at [d - 1]: the result is the destination followed by the first
    [n - 1] elements of the source and a terminator, and the cell after
    the [n] appended elements is not written. *)
Theorem strncat_long_source_truncated
        (fuel : nat) (m : memory) (dest src n len : Z) :
  cstring m dest len -> (Z.to_nat len < fuel)%nat ->
  0 < n -> nonzero_run m src n ->
  dest + len <= src \/ src + n <= dest + len ->
  exists m',
    strncat fuel m dest src n = Some m' /\
    (forall i, 0 <= i < n - 1 -> m' (dest + len + i) = m (src + i)) /\
    m' (dest + len + (n - 1)) = 0 /\
    (forall x, x < dest + len \/ dest + len + n <= x -> m' x = m x).
Proof.
  intros Hdest Hfuel Hn Hrun Hds.
  assert (Hlen : 0 <= len) by apply Hdest.
  unfold strncat.
  rewrite (scan_terminator_cstring (Z.to_nat len))
    by (rewrite ?Z2Nat.id by lia; assumption).
  rewrite Z2Nat.id by lia.
  rewrite strncat_copy_long by (rewrite Z2Nat.id by lia; assumption).
  rewrite Z.eqb_refl, Z2Nat.id by lia.
  eexists. split; [reflexivity|]. repeat split.
  - intros i Hi. rewrite store_other by lia.
    apply copy_forward_content; lia.
  - replace (dest + len + n - 1) with (dest + len + (n - 1)) by lia.
    apply store_same.
  - intros x Hx. rewrite store_other by lia.
    apply copy_forward_frame. lia.
Qed.

End StringProperties.

(** ** String to number conversion *)

Lemma strtol_parse_with :
  strtol = parse_with 32 (fun c => isspace (c mod 256)).
Proof. reflexivity. Qed.

Lemma strtoll_parse_with :
  strtoll = parse_with 64 (fun c => isspace (c mod 256)).
Proof. reflexivity. Qed.

Lemma wcstol_parse_with {os : Win32} : wcstol = parse_with 32 iswspace.
Proof. reflexivity. Qed.

Lemma wrap_signed_0 bits : 0 < bits -> wrap_signed bits 0 = 0.
Proof.
  intros Hb. unfold wrap_signed.
  rewrite Z.add_0_l, Z.mod_small; [lia|].
  split; [apply Z.pow_nonneg; lia|].
  apply Z.pow_lt_mono_r; lia.
Qed.

(** The conversion loop: it consumes digits of the base, stops in front of
    a character that is not one, and leaves the accumulator alone when it
    consumes nothing. *)
Lemma convert_spec bits base s :
  forall result p,
    let e := snd (convert bits base s result p) in
    (p <= e)%nat /\
    Forall (fun c => is_digit_in base c = true) (firstn (e - p) s) /\
    is_digit_in base (nth (e - p) s 0) = false /\
    (e = p -> fst (convert bits base s result p) = result).
Proof.
  induction s as [|c s IH]; intros result p; cbn [convert].
  - cbn [snd fst]. rewrite Nat.sub_diag. cbn. auto.
  - unfold is_digit_in at 2.
    destruct (c =? 0) eqn:Hc.
    { cbn [snd fst]. rewrite Nat.sub_diag. cbn [firstn nth].
      unfold is_digit_in. rewrite Hc. cbn. auto. }
    destruct (digit_value c) as [digit|] eqn:Hd.
    2:{ cbn [snd fst]. rewrite Nat.sub_diag. cbn [firstn nth].
        unfold is_digit_in. rewrite Hc, Hd. cbn. auto. }
    destruct (digit >=? base) eqn:Hge.
    { cbn [snd fst]. rewrite Nat.sub_diag. cbn [firstn nth].
      unfold is_digit_in. rewrite Hc, Hd, Hge. cbn. auto. }
    specialize (IH (wrap_signed bits (result * base + digit)) (S p)).
    cbv zeta in IH. destruct IH as (Hle & Hall & Hstop & _).
    set (e := snd (convert bits base s _ (S p))) in *.
    replace (e - p)%nat with (S (e - S p)) by lia.
    cbn [firstn nth]. repeat split.
    + lia.
    + constructor; [|exact Hall].
      unfold is_digit_in. now rewrite Hc, Hd, Hge.
    + exact Hstop.
    + lia.
Qed.

Lemma parse_with_end_pointer bits space :
  0 < bits -> end_pointer_spec (parse_with bits space) bits space.
Proof.
  intros Hbits str base. cbv zeta.
  unfold parse_with, digits_consumed, digits_start.
  destruct (parse_sign str (skip_spaces space str 0)) as [negative p1].
  destruct (detect_base base str p1) as [b p]. cbn [fst snd].
  pose proof (convert_spec bits b (skipn p str) 0 p) as Hconv.
  cbv zeta in Hconv.
  destruct (convert bits b (skipn p str) 0 p) as [result e].
  cbn [fst snd] in *. destruct Hconv as (Hle & Hall & Hstop & Hzero).
  replace (p + (e - p))%nat with e by lia.
  split; [reflexivity|]. split; [reflexivity|].
  split; [exact Hall|]. split; [|split].
  - unfold char_at. rewrite nth_skipn in Hstop.
    now replace (p + (e - p))%nat with e in Hstop by lia.
  - split.
    + intros H. injection H as ->. lia.
    + intros [-> H]. f_equal. lia.
  - intros Hnd endptr. rewrite Hzero by lia.
    destruct negative; [|reflexivity]. now apply wrap_signed_0.
Qed.

(** The parses the specification lists as testable. *)
Example strtol_negative_decimal :
  strtol [32; 32; 45; 52; 50] true 10 = (-42, Some 5%nat).
Proof. reflexivity. Qed.

Example strtol_empty_input : strtol [] true 10 = (0, Some 0%nat).
Proof. reflexivity. Qed.

Example strtol_octal_prefix : strtol [48; 49; 55] true 0 = (15, Some 3%nat).
Proof. reflexivity. Qed.

Example strtoll_hex_explicit :
  strtoll [45; 48; 88; 102; 102; 103] true 16 = (-255, Some 5%nat).
Proof. reflexivity. Qed.

(** Nothing clamps the accumulator: 2^31 wraps to the least [long]. *)
Example strtol_wraps :
  strtol [50; 49; 52; 55; 52; 56; 51; 54; 52; 56] true 10
  = (- 2 ^ 31, Some 10%nat).
Proof. reflexivity. Qed.

Section ParseProperties.
Context {os : Win32}.

(** C3, amended: each of [strtol], [strtoll] and [wcstol] sets a
    requested end-pointer to the first unconsumed character, which
    follows the whitespace, the sign, the base prefix and the digits
    consumed; it equals the start of the input exactly when nothing at
    all was consumed; and whenever no digit was consumed the result is
    zero. *)
Theorem end_pointer_first_unconsumed :
  end_pointer_spec strtol 32 (fun c => isspace (c mod 256)) /\
  end_pointer_spec strtoll 64 (fun c => isspace (c mod 256)) /\
  end_pointer_spec wcstol 32 iswspace.
Proof.
  rewrite strtol_parse_with, strtoll_parse_with, wcstol_parse_with.
  split; [|split]; apply parse_with_end_pointer; lia.
Qed.

End ParseProperties.

(** C3 as stated fails: on the input [" "] in base 10 no digit is consumed,
    yet the end-pointer is one past the start. *)
Lemma end_pointer_after_space_counterexample :
  ~ (snd (strtol [32] true 10) = Some O <->
     digits_consumed 32 (fun c => isspace (c mod 256)) [32] 10 = O).
Proof.
  vm_compute. intros [_ H]. specialize (H eq_refl). discriminate H.
Qed.

(** *** The steps in front of the digits *)

Lemma skip_spaces_app space ws t :
  forall p,
    Forall (fun c => space c = true) ws ->
    t = [] \/ space (hd 0 t) = false ->
    skip_spaces space (ws ++ t) p = (p + length ws)%nat.
Proof.
  induction ws as [|c ws IH]; intros p Hws Ht; cbn [app length skip_spaces].
  - rewrite Nat.add_0_r. destruct Ht as [-> | Ht]; [reflexivity|].
    destruct t as [|c t]; [reflexivity|]. cbn [skip_spaces hd] in *.
    now rewrite Ht.
  - inversion Hws; subst. rewrite H1, IH by assumption. lia.
Qed.

Lemma isspace_not_printable c : 43 <= c <= 122 -> isspace (c mod 256) = false.
Proof.
  intros Hc. rewrite Z.mod_small by lia. unfold isspace.
  repeat (apply Bool.orb_false_iff; split); apply Z.eqb_neq; lia.
Qed.

Lemma char_at_app (pre t : list Z) (i : nat) :
  char_at (pre ++ t) (length pre + i) = char_at t i.
Proof.
  unfold char_at. rewrite app_nth2 by lia. f_equal. lia.
Qed.

Lemma char_at_head (t : list Z) : char_at t 0 = hd 0 t.
Proof. now destruct t. Qed.

(** The sign step on a string that continues with [sg ++ t]. *)
Lemma parse_sign_app (pre sg t : list Z) :
  sg = [] \/ sg = [43] \/ sg = [45] ->
  (sg = [] -> hd 0 t <> 43 /\ hd 0 t <> 45) ->
  parse_sign (pre ++ sg ++ t) (length pre)
  = (is_negative sg, (length pre + length sg)%nat).
Proof.
  intros Hsg Ht. unfold parse_sign.
  replace (char_at (pre ++ sg ++ t) (length pre)) with (hd 0 (sg ++ t))
    by (rewrite <- char_at_head, <- (char_at_app pre (sg ++ t) 0);
        f_equal; lia).
  destruct Hsg as [-> | [-> | ->]]; cbn [app hd length is_negative].
  - destruct (Ht eq_refl) as [H43 H45].
    apply Z.eqb_neq in H43, H45. rewrite H43, H45. f_equal. lia.
  - cbn. f_equal. lia.
  - cbn. f_equal. lia.
Qed.

(** The base detection only looks at the cells from the cursor on. *)
Lemma detect_base_app (base : Z) (pre t : list Z) :
  detect_base base (pre ++ t) (length pre)
  = (fst (detect_base base t 0),
     (length pre + snd (detect_base base t 0))%nat).
Proof.
  unfold detect_base.
  replace (char_at (pre ++ t) (length pre)) with (char_at t 0)
    by (rewrite <- (char_at_app pre t 0); f_equal; lia).
  rewrite (char_at_app pre t 1). cbn [Nat.add].
  destruct (base =? 0); [destruct (char_at t 0 =? 48)|];
    repeat match goal with
           | |- context [if ?b then _ else _] => destruct b
           end;
    cbn [fst snd]; f_equal; lia.
Qed.

(** A parse of whitespace, an optional sign and then [t]: the base is
    detected at the head of [t], and the digits are converted from what
    the detection leaves of [t]. *)
Lemma parse_with_prefix bits space (ws sg t : list Z) (endptr : bool)
      (base : Z) :
  Forall (fun c => space c = true) ws ->
  sg = [] \/ sg = [43] \/ sg = [45] ->
  space 43 = false -> space 45 = false ->
  (sg = [] -> space (hd 0 t) = false /\ hd 0 t <> 43 /\ hd 0 t <> 45) ->
  parse_with bits space (ws ++ sg ++ t) endptr base
  = parse_digits bits (fst (detect_base base t 0)) (is_negative sg) endptr
      (skipn (snd (detect_base base t 0)) t)
      (length ws + length sg + snd (detect_base base t 0)).
Proof.
  intros Hws Hsg H43 H45 Ht. unfold parse_with, parse_digits.
  rewrite skip_spaces_app;
    [|assumption
     |right; destruct Hsg as [-> | [-> | ->]]; cbn [app hd];
      [apply (Ht eq_refl) | assumption | assumption]].
  cbn [Nat.add].
  rewrite parse_sign_app by (assumption || (intros H; apply (Ht H))).
  rewrite app_assoc.
  replace (length ws + length sg)%nat with (length (ws ++ sg))
    by apply length_app.
  rewrite detect_base_app.
  set (k := snd (detect_base base t 0)).
  rewrite skipn_app, skipn_all2 by lia.
  replace (length (ws ++ sg) + k - length (ws ++ sg))%nat with k by lia.
  reflexivity.
Qed.

(** C4: [strtol] on whitespace [ws], an optional sign [sg] and then the
    rest of the input.  With base 0, a ['0'] followed by ['x'] or ['X']
    selects base 16 and both characters are consumed: the digits are
    converted in base 16 from the character after them on.  Any other
    leading ['0'] selects base 8 and that one character is consumed.  Any
    other leading character selects base 10 and nothing is consumed.  With
    base 16 a ["0x"] or ["0X"] prefix is consumed as well.  In particular
    ["0x1A"] in base 0 gives 26 with the end-pointer past the four
    characters, and ["  -0x1A"] gives -26 with the end-pointer past the
    seven. *)
Theorem base_detection (ws sg rest : list Z) (endptr : bool) :
  Forall (fun c => isspace (c mod 256) = true) ws ->
  sg = [] \/ sg = [43] \/ sg = [45] ->
  let p := (length ws + length sg)%nat in
  let negative := is_negative sg in
  (forall x, x = 120 \/ x = 88 ->
     strtol (ws ++ sg ++ 48 :: x :: rest) endptr 0
     = parse_digits 32 16 negative endptr rest (p + 2) /\
     strtol (ws ++ sg ++ 48 :: x :: rest) endptr 16
     = parse_digits 32 16 negative endptr rest (p + 2)) /\
  (hd 0 rest <> 120 -> hd 0 rest <> 88 ->
   strtol (ws ++ sg ++ 48 :: rest) endptr 0
   = parse_digits 32 8 negative endptr rest (p + 1)) /\
  (hd 0 rest <> 48 ->
   (sg = [] -> isspace (hd 0 rest mod 256) = false /\
               hd 0 rest <> 43 /\ hd 0 rest <> 45) ->
   strtol (ws ++ sg ++ rest) endptr 0
   = parse_digits 32 10 negative endptr rest p) /\
  strtol [48; 120; 49; 65] true 0 = (26, Some 4%nat) /\
  strtol [32; 32; 45; 48; 120; 49; 65] true 0 = (-26, Some 7%nat).
Proof.
  intros Hws Hsg p negative. rewrite strtol_parse_with.
  assert (Hzero : sg = [] ->
                  isspace (48 mod 256) = false /\ 48 <> 43 /\ 48 <> 45)
    by (intros _; split; [reflexivity | lia]).
  split; [|split; [|split; [|split]]].
  - intros x Hx.
    assert (H0 : detect_base 0 (48 :: x :: rest) 0 = (16, 2%nat))
      by (destruct Hx as [-> | ->]; reflexivity).
    assert (H16 : detect_base 16 (48 :: x :: rest) 0 = (16, 2%nat))
      by (destruct Hx as [-> | ->]; reflexivity).
    split; rewrite parse_with_prefix by (assumption || reflexivity);
      rewrite ?H0, ?H16; reflexivity.
  - intros Hx HX.
    assert (H0 : detect_base 0 (48 :: rest) 0 = (8, 1%nat)).
    { unfold detect_base. cbn [Z.eqb Pos.eqb char_at nth Nat.add].
      change (nth 0 rest 0) with (char_at rest 0). rewrite char_at_head.
      apply Z.eqb_neq in Hx, HX. now rewrite Hx, HX. }
    rewrite parse_with_prefix by (assumption || reflexivity).
    rewrite H0. reflexivity.
  - intros H48 Hrest.
    assert (H0 : detect_base 0 rest 0 = (10, 0%nat)).
    { unfold detect_base. cbn [Z.eqb]. rewrite char_at_head.
      apply Z.eqb_neq in H48. now rewrite H48. }
    rewrite parse_with_prefix by (assumption || reflexivity).
    rewrite H0. cbn [fst snd skipn]. now rewrite Nat.add_0_r.
  - reflexivity.
  - reflexivity.
Qed.

(** ** Wide to multibyte conversion *)

Section ConversionProperties.
Context {os : Win32}.


End ConversionProperties.


(** ** Utility functions *)

(** *** Insertion into the reversed prefix *)

Lemma StronglySorted_snoc {A} (R : A -> A -> Prop) l a :
  StronglySorted R l -> Forall (fun y => R y a) l ->
  StronglySorted R (l ++ [a]).
Proof.
  induction 1 as [|b l Hs IH Hb]; intros Ha; cbn.
  - repeat constructor.
  - inversion Ha; subst. constructor; [auto|].
    apply Forall_app. split; [assumption | repeat constructor; assumption].
Qed.

Lemma StronglySorted_rev {A} (R : A -> A -> Prop) l :
  StronglySorted (fun x y => R y x) l -> StronglySorted R (rev l).
Proof.
  induction 1 as [|a l Hs IH Ha]; cbn; [constructor|].
  apply StronglySorted_snoc; [assumption | now apply Forall_rev].
Qed.

Section InsertionSort.

Variable cmp : list Z -> list Z -> Z.
Hypothesis cmp_ok : total_preorder cmp.

(** The order of the reversed prefix, greatest first; and the test that
    [e] is ordered as equal to [k]. *)
Local Notation "'ge'" := (fun x y : list Z => cmp y x <= 0).
Local Notation "'same' k" := (fun e : list Z => cmp e k =? 0)
                               (at level 10, k at level 9).

Lemma cmp_eq_flip x y : cmp x y = 0 -> cmp y x <= 0.
Proof.
  intros H. destruct (Z_le_gt_dec (cmp y x) 0) as [|Hgt]; [assumption|].
  assert (cmp x y < 0) by (apply (cmp_flip cmp cmp_ok); lia). lia.
Qed.

Lemma insert_rev_perm x r : Permutation (x :: r) (insert_rev cmp x r).
Proof.
  induction r as [|y r IH]; cbn [insert_rev]; [reflexivity|].
  destruct (cmp y x >? 0); [|reflexivity].
  rewrite perm_swap. now apply perm_skip.
Qed.

Lemma insert_rev_length x r : length (insert_rev cmp x r) = S (length r).
Proof. symmetry. apply (Permutation_length (insert_rev_perm x r)). Qed.

Lemma insert_rev_sorted x r :
  StronglySorted ge r -> StronglySorted ge (insert_rev cmp x r).
Proof.
  induction 1 as [|y r Hs IH Hy]; cbn [insert_rev].
  - repeat constructor.
  - destruct (Z.gtb_spec (cmp y x) 0) as [Hgt|Hle].
    + constructor; [assumption|].
      apply (Permutation_Forall (insert_rev_perm x r)).
      constructor; [|assumption].
      apply Z.lt_le_incl, (cmp_flip cmp cmp_ok). lia.
    + constructor; [now constructor|].
      constructor; [exact Hle|].
      eapply Forall_impl; [|exact Hy]. cbv beta. intros z Hz.
      eapply (cmp_trans cmp cmp_ok); eassumption.
Qed.

(** An element is moved only past elements ordered greater than it, so
    the elements ordered as equal to any [k] keep their order. *)
Lemma insert_rev_stable k x r :
  filter (same k) (insert_rev cmp x r) = filter (same k) (x :: r).
Proof.
  induction r as [|y r IH]; cbn [insert_rev]; [reflexivity|].
  destruct (Z.gtb_spec (cmp y x) 0) as [Hgt|Hle]; [|reflexivity].
  cbn [filter] in *. rewrite IH.
  destruct (same k x) eqn:Hx, (same k y) eqn:Hy; try reflexivity.
  exfalso. apply Z.eqb_eq in Hx, Hy.
  assert (cmp y x <= 0).
  { apply (cmp_trans cmp cmp_ok) with k; [lia | now apply cmp_eq_flip]. }
  lia.
Qed.

Lemma isort_rev_perm r rest :
  Permutation (rev r ++ rest) (rev (isort_rev cmp r rest)).
Proof.
  unfold isort_rev.
  revert r; induction rest as [|x rest IH]; intros r; cbn [fold_left].
  - now rewrite app_nil_r.
  - rewrite <- IH. rewrite <- (insert_rev_perm x r). cbn [rev].
    now rewrite <- app_assoc.
Qed.

Lemma isort_rev_sorted r rest :
  StronglySorted ge r -> StronglySorted ge (isort_rev cmp r rest).
Proof.
  unfold isort_rev.
  revert r; induction rest as [|x rest IH]; intros r Hr; cbn [fold_left];
    [assumption|].
  apply IH. now apply insert_rev_sorted.
Qed.

Lemma isort_rev_stable k r rest :
  filter (same k) (rev (isort_rev cmp r rest))
  = filter (same k) (rev r ++ rest).
Proof.
  unfold isort_rev.
  revert r; induction rest as [|x rest IH]; intros r; cbn [fold_left].
  - now rewrite app_nil_r.
  - rewrite IH.
    rewrite !filter_app, !filter_rev, insert_rev_stable.
    cbn [filter]. destruct (same k x); cbn [rev app].
    + now rewrite <- app_assoc.
    + reflexivity.
Qed.

End InsertionSort.

(** *** The array in memory *)

Lemma app_eq_length_inv {A} (a a' b b' : list A) :
  length a = length a' -> a ++ b = a' ++ b' -> a = a' /\ b = b'.
Proof.
  revert a'; induction a as [|x a IH]; intros [|x' a'] Hlen Heq;
    cbn in *; try discriminate; [auto|].
  injection Heq as -> Heq. destruct (IH a') as [-> ->]; auto.
Qed.

Lemma elements_length m arr size num : length (elements m arr size num) = num.
Proof. unfold elements. now rewrite length_map, length_seq. Qed.

Lemma elements_cons m arr size num :
  elements m arr size (S num)
  = load_range m arr (Z.to_nat size) :: elements m (arr + size) size num.
Proof.
  unfold elements. cbn [seq map]. f_equal.
  - f_equal. cbn. lia.
  - rewrite <- seq_shift, map_map. apply map_ext. intros i. f_equal. lia.
Qed.

Lemma elements_app m arr size a b :
  elements m arr size (a + b)
  = elements m arr size a ++ elements m (arr + Z.of_nat a * size) size b.
Proof.
  revert arr; induction a as [|a IH]; intros arr.
  - replace (arr + Z.of_nat 0 * size) with arr by lia. reflexivity.
  - cbn [Nat.add]. rewrite !elements_cons, IH. cbn [app].
    replace (arr + size + Z.of_nat a * size)
      with (arr + Z.of_nat (S a) * size) by lia.
    reflexivity.
Qed.

Lemma elements_frame m m' arr size num :
  0 <= size ->
  (forall x, arr <= x < arr + Z.of_nat num * size -> m' x = m x) ->
  elements m' arr size num = elements m arr size num.
Proof.
  intros Hsize Hsame. unfold elements. apply map_ext_in. intros i Hi.
  apply in_seq in Hi. apply load_range_ext. intros k Hk. apply Hsame. nia.
Qed.

Lemma memcpy_load m d s n :
  d + n <= s \/ s + n <= d ->
  load_range (memcpy m d s n) d (Z.to_nat n) = load_range m s (Z.to_nat n).
Proof.
  intros Hdis. apply load_range_ext. intros i Hi.
  apply memcpy_content; lia.
Qed.

Lemma memcpy_load_other m d s n a k :
  a + Z.of_nat k <= d \/ d + n <= a ->
  load_range (memcpy m d s n) a k = load_range m a k.
Proof.
  intros Hdis. apply load_range_ext. intros i Hi.
  apply memcpy_frame. lia.
Qed.

(** Copying an element from outside into slot [j] replaces that element
    of the array and no other. *)
Lemma elements_update m arr size j r s :
  0 <= size ->
  s + size <= arr + Z.of_nat j * size \/ arr + Z.of_nat j * size + size <= s ->
  elements (memcpy m (arr + Z.of_nat j * size) s size) arr size (j + S r)
  = elements m arr size j
    ++ load_range m s (Z.to_nat size)
    :: elements m (arr + Z.of_nat (S j) * size) size r.
Proof.
  intros Hsize Hdis.
  rewrite elements_app, elements_cons. f_equal; [|f_equal].
  - apply elements_frame; [assumption|]. intros x Hx.
    apply memcpy_frame. lia.
  - apply memcpy_load. lia.
  - replace (arr + Z.of_nat j * size + size)
      with (arr + Z.of_nat (S j) * size) by lia.
    apply elements_frame; [assumption|]. intros x Hx.
    apply memcpy_frame. lia.
Qed.

Section SortProperties.
Context {os : Win32}.

Variable compar : memory -> Z -> Z -> Z.

(** C10: when the scratch allocation of [qsort] fails, the memory is
    returned as it was: no cell of the array, or of anything else, is
    written. *)
Theorem qsort_alloc_failure
        (st : process Heap) (base num size : Z) (h : Heap) :
  HeapAlloc (heap st) 0 (if size =? 0 then 1 else size) = (NULL, h) ->
  qsort compar st base num size = mkProcess h (mem st).
Proof.
  intros Halloc. unfold qsort, malloc. rewrite Halloc. reflexivity.
Qed.

(** *** The loops of [qsort] *)

Variable cmp : list Z -> list Z -> Z.
Variables arr temp size : Z.
Hypothesis size_nonneg : 0 <= size.
Hypothesis compar_cmp : compar_reads compar cmp size.

Lemma elements_snoc m j :
  elements m arr size (S j)
  = elements m arr size j
    ++ [load_range m (arr + Z.of_nat j * size) (Z.to_nat size)].
Proof.
  replace (S j) with (j + 1)%nat by lia.
  rewrite elements_app, elements_cons. reflexivity.
Qed.

(** The inner loop, followed by the store of [temp]: with the element
    [x] in [temp] and the hole at slot [j], the first [j] elements and
    [x] end up as one round of insertion leaves them, and the [r]
    elements above the hole are not touched. *)
Lemma qsort_shift_spec x j :
  forall r m,
    load_range m temp (Z.to_nat size) = x ->
    temp + size <= arr \/ arr + Z.of_nat (j + S r) * size <= temp ->
    let '(m2, j') := qsort_shift compar j m arr temp size in
    elements (memcpy m2 (arr + Z.of_nat j' * size) temp size)
             arr size (j + S r)
    = rev (insert_rev cmp x (rev (elements m arr size j)))
      ++ elements m (arr + Z.of_nat (S j) * size) size r.
Proof.
  induction j as [|j IH]; intros r m Hx Hdis; cbn [qsort_shift].
  - rewrite elements_update by (assumption || nia).
    rewrite Hx. reflexivity.
  - rewrite compar_cmp, Hx.
    set (y := load_range m (arr + Z.of_nat j * size) (Z.to_nat size)).
    rewrite elements_snoc. fold y.
    rewrite rev_app_distr. cbn [rev app insert_rev].
    destruct (cmp y x >? 0).
    + set (m' := memcpy m (arr + Z.of_nat (S j) * size)
                        (arr + Z.of_nat j * size) size).
      specialize (IH (S r) m').
      destruct (qsort_shift compar j m' arr temp size) as [m2 j'].
      replace (S j + S r)%nat with (j + S (S r))%nat by lia.
      rewrite IH.
      * rewrite elements_cons. cbn [rev]. rewrite <- app_assoc. cbn [app].
        f_equal; [|f_equal].
        -- do 3 f_equal. apply elements_frame; [assumption|].
           intros a Ha. apply memcpy_frame. lia.
        -- subst m' y. apply memcpy_load. lia.
        -- replace (arr + Z.of_nat (S j) * size + size)
             with (arr + Z.of_nat (S (S j)) * size) by lia.
           apply elements_frame; [assumption|].
           intros a Ha. apply memcpy_frame. lia.
      * rewrite <- Hx. apply memcpy_load_other. nia.
      * replace (j + S (S r))%nat with (S j + S r)%nat by lia. exact Hdis.
    + rewrite elements_update by (assumption || nia).
      rewrite Hx, elements_snoc. fold y.
      cbn [rev]. rewrite rev_involutive, <- !app_assoc. reflexivity.
Qed.

(** The outer loop from index [i] on sorts the remaining elements into
    the prefix, one round of insertion each. *)
Lemma qsort_loop_spec todo :
  forall i m,
    temp + size <= arr \/ arr + Z.of_nat (i + todo) * size <= temp ->
    elements (qsort_loop compar todo i m arr temp size) arr size (i + todo)
    = rev (isort_rev cmp (rev (elements m arr size i))
                     (elements m (arr + Z.of_nat i * size) size todo)).
Proof.
  induction todo as [|todo IH]; intros i m Hdis; cbn [qsort_loop].
  - rewrite Nat.add_0_r. cbn. now rewrite rev_involutive.
  - set (x := load_range m (arr + Z.of_nat i * size) (Z.to_nat size)).
    set (m1 := memcpy m temp (arr + Z.of_nat i * size) size).
    assert (Hx : load_range m1 temp (Z.to_nat size) = x)
      by (apply memcpy_load; nia).
    pose proof (qsort_shift_spec x i todo m1 Hx Hdis) as Hround.
    destruct (qsort_shift compar i m1 arr temp size) as [m2 j].
    set (m3 := memcpy m2 (arr + Z.of_nat j * size) temp size) in *.
    assert (Hm1 : forall a n,
               arr <= a -> a + Z.of_nat n * size <= arr + Z.of_nat (i + S todo) * size ->
               elements m1 a size n = elements m a size n).
    { intros a n Ha Hn. apply elements_frame; [assumption|].
      intros c Hc. apply memcpy_frame. lia. }
    rewrite !Hm1 in Hround by nia.
    replace (i + S todo)%nat with (S i + todo)%nat in Hround |- * by lia.
    rewrite elements_app in Hround.
    apply app_eq_length_inv in Hround as [Hprefix Hrest].
    2:{ rewrite length_rev, insert_rev_length, length_rev.
        now rewrite !elements_length. }
    rewrite IH by (replace (S i + todo)%nat with (i + S todo)%nat by lia;
                   exact Hdis).
    rewrite Hprefix, Hrest, rev_involutive, elements_cons. fold x.
    replace (arr + Z.of_nat i * size + size)
      with (arr + Z.of_nat (S i) * size) by lia.
    reflexivity.
Qed.

End SortProperties.

Section SortCorrect.
Context {os : Win32}.

Variable compar : memory -> Z -> Z -> Z.
Variable cmp : list Z -> list Z -> Z.

(** With its scratch element allocated away from the array, [qsort]
    leaves the array as the functional insertion sort of what it was. *)
Lemma qsort_elements (st : process Heap) (base num size temp : Z) (h : Heap) :
  0 <= size ->
  compar_reads compar cmp size ->
  HeapAlloc (heap st) 0 (if size =? 0 then 1 else size) = (temp, h) ->
  temp <> NULL ->
  temp + size <= base \/ base + num * size <= temp ->
  elements (mem (qsort compar st base num size)) base size (Z.to_nat num)
  = rev (isort_rev cmp [] (elements (mem st) base size (Z.to_nat num))).
Proof.
  intros Hsize Hreads Halloc Htemp Hdis.
  unfold qsort, malloc. rewrite Halloc.
  apply Z.eqb_neq in Htemp. rewrite Htemp. apply Z.eqb_neq in Htemp.
  rewrite free_nonnull by assumption. cbn [mem heap].
  destruct (Z.to_nat num) as [|n] eqn:Hnum; [reflexivity|].
  replace (S n - 1)%nat with n by lia.
  change (S n) with (1 + n)%nat.
  rewrite (qsort_loop_spec compar cmp base temp size Hsize Hreads) by lia.
  rewrite (elements_cons _ _ _ n).
  replace (base + Z.of_nat 1 * size) with (base + size) by lia.
  rewrite (elements_cons _ _ _ 0). reflexivity.
Qed.

(** C8: for a comparator that reads the two elements it is given and
    orders them by a total preorder, when the scratch allocation
    succeeds (away from the array), [qsort] leaves the array sorted in
    non-decreasing order, as a permutation of what it held, with the
    elements the comparator orders as equal in their original order. *)
Theorem qsort_sorts_stably
        (st : process Heap) (base num size temp : Z) (h : Heap) :
  0 <= size ->
  compar_reads compar cmp size ->
  total_preorder cmp ->
  HeapAlloc (heap st) 0 (if size =? 0 then 1 else size) = (temp, h) ->
  temp <> NULL ->
  temp + size <= base \/ base + num * size <= temp ->
  let before := elements (mem st) base size (Z.to_nat num) in
  let after :=
    elements (mem (qsort compar st base num size)) base size (Z.to_nat num) in
  StronglySorted (fun x y => cmp x y <= 0) after /\
  Permutation before after /\
  (forall k, filter (fun e => cmp e k =? 0) after
             = filter (fun e => cmp e k =? 0) before).
Proof.
  intros Hsize Hreads Hcmp Halloc Htemp Hdis before after.
  assert (Hafter : after = rev (isort_rev cmp [] before))
    by (apply (qsort_elements st base num size temp h); assumption).
  rewrite Hafter. split; [|split].
  - apply StronglySorted_rev. apply isort_rev_sorted; [assumption|].
    constructor.
  - apply (isort_rev_perm cmp [] before).
  - intros k. apply (isort_rev_stable cmp Hcmp k [] before).
Qed.

End SortCorrect.

(** * The statements at concrete inputs *)

Lemma realloc_null_and_zero_witness :
  let st := mkProcess (4096 : @Heap bump64) (fun _ => 0) in
  4096 <> NULL /\
  realloc (os := bump64) st 4096 0 = (NULL, free (os := bump64) st 4096).
Proof.
  intros st.
  assert (H : 4096 <> NULL) by discriminate.
  split; [exact H|].
  exact (proj1 (proj2 (realloc_null_and_zero (os := bump64) st 16 4096) H)).
Defined.

Lemma aligned_malloc_header_witness :
  let st := mkProcess (4099 : @Heap bump64) (fun _ => 0) in
  exists payload st',
    _aligned_malloc (os := bump64) st 100 (2 ^ 4) = (payload, st') /\
    4099 + 8 <= payload /\
    payload mod 2 ^ 4 = 0 /\
    load_ptr (os := bump64) (mem st') (payload - 8) = 4099 /\
    heap (_aligned_free (os := bump64) st' payload) = bump_HeapFree 4223 4099.
Proof.
  intros st.
  destruct (aligned_malloc_header (os := bump64) st 100 4 4099 4223)
    as (payload & st' & Hal & Hlow & Hmod & _ & Hload & _ & _ & Hfree).
  - lia.
  - lia.
  - vm_compute. reflexivity.
  - reflexivity.
  - lia.
  - vm_compute. discriminate.
  - exists payload, st'. rewrite Hfree. auto.
Defined.

Lemma memmove_overlap_witness :
  load_range (memmove overlapping 102 100 3) 102 (Z.to_nat 3) = [1; 2; 3] /\
  memmove overlapping 102 100 3 100 = 1.
Proof.
  destruct (memmove_overlap overlapping 102 100 3) as (Hc & Hf & _).
  split.
  - rewrite Hc. reflexivity.
  - rewrite Hf by lia. reflexivity.
Defined.

Lemma strncpy_short_source_overrun_witness :
  short_source 102 = 9 /\
  strncpy short_source 100 200 2 102 = 0 /\
  wcsncpy short_source 100 200 2 102 = 0.
Proof.
  destruct (strncpy_short_source_overrun short_source 100 200 2 1)
    as (_ & Hz & _ & Hw).
  - split; [lia|]. split; [|reflexivity].
    intros i Hi. assert (i = 0) as -> by lia. vm_compute. discriminate.
  - lia.
  - left. lia.
  - split; [reflexivity|]. split.
    + apply (Hz 2). lia.
    + rewrite Hw. apply (Hz 2). lia.
Defined.

Lemma strncat_long_source_truncated_witness :
  exists m',
    strncat (os := bump64) 3 two_strings 100 200 2 = Some m' /\
    m' 102 = 99 /\ m' 103 = 0 /\ m' 104 = 9.
Proof.
  destruct (strncat_long_source_truncated (os := bump64)
              3 two_strings 100 200 2 2)
    as (m' & Hcat & Hcopy & Hterm & Hframe).
  - split; [lia|]. split; [|reflexivity].
    intros i Hi.
    assert (i = 0 \/ i = 1) as [-> | ->] by lia; vm_compute; discriminate.
  - vm_compute. lia.
  - lia.
  - intros i Hi.
    assert (i = 0 \/ i = 1) as [-> | ->] by lia; vm_compute; discriminate.
  - left. lia.
  - exists m'. split; [exact Hcat|]. split; [|split].
    + change (m' 102) with (m' (100 + 2 + 0)).
      rewrite Hcopy by lia. reflexivity.
    + exact Hterm.
    + rewrite Hframe by lia. reflexivity.
Defined.

Lemma end_pointer_first_unconsumed_witness :
  snd (strtol [45] true 10) = Some 1%nat /\
  fst (strtol [45] true 10) = 0.
Proof.
  destruct (proj1 (end_pointer_first_unconsumed (os := bump64)) [45] 10)
    as (_ & Hend & _ & _ & _ & Hzero).
  split; [exact Hend|]. apply Hzero. reflexivity.
Defined.

Lemma base_detection_witness :
  strtol [9; 43; 48; 88; 55; 102; 33] true 0 = (127, Some 6%nat) /\
  strtol [9; 43; 48; 55; 55; 56] true 0 = (63, Some 5%nat) /\
  strtol [9; 43; 55; 55; 97] true 0 = (77, Some 4%nat).
Proof.
  assert (Hws : Forall (fun c => isspace (c mod 256) = true) [9])
    by (repeat constructor).
  assert (Hsg : [43] = [] \/ [43] = [43] \/ [43] = [45])
    by (right; left; reflexivity).
  split; [|split].
  - apply (proj1 (proj1 (base_detection [9] [43] [55; 102; 33] true Hws Hsg)
                    88 (or_intror eq_refl))).
  - apply (proj1 (proj2 (base_detection [9] [43] [55; 55; 56] true Hws Hsg)));
      discriminate.
  - apply (proj1 (proj2 (proj2
                    (base_detection [9] [43] [55; 55; 97] true Hws Hsg))));
      discriminate.
Defined.



Lemma qsort_alloc_failure_witness :
  let st := mkProcess (4096 : @Heap exhausted64) keyed_array in
  qsort (os := exhausted64) compar_key st 100 4 2 = mkProcess 4096 keyed_array.
Proof.
  intros st.
  apply (qsort_alloc_failure (os := exhausted64) compar_key st 100 4 2 4096).
  reflexivity.
Defined.

Lemma cmp_key_total_preorder : total_preorder cmp_key.
Proof. split; unfold cmp_key; intros; lia. Defined.

Lemma qsort_sorts_stably_witness :
  let st := mkProcess (4096 : @Heap bump64) keyed_array in
  let after :=
    elements (mem (qsort (os := bump64) compar_key st 100 4 2)) 100 2 4 in
  StronglySorted (fun x y => cmp_key x y <= 0) after /\
  Permutation [[2; 0]; [1; 0]; [2; 1]; [1; 1]] after /\
  filter (fun e => cmp_key e [2] =? 0) after = [[2; 0]; [2; 1]].
Proof.
  intros st after.
  destruct (qsort_sorts_stably (os := bump64) compar_key cmp_key
                               st 100 4 2 4096 4098)
    as (Hsorted & Hperm & Hstable).
  - lia.
  - intros m p q. reflexivity.
  - exact cmp_key_total_preorder.
  - reflexivity.
  - discriminate.
  - right. lia.
  - split; [exact Hsorted|]. split; [exact Hperm|].
    subst after. rewrite Hstable. reflexivity.
Defined.

(** * Further properties *)

(** ** Memory functions *)

Lemma memset_loop_frame n m d v x :
  x < d \/ d + Z.of_nat n <= x -> memset_loop n m d v x = m x.
Proof.
  revert m d; induction n as [|k IH]; intros m d Hx; [reflexivity|].
  cbn [memset_loop]. rewrite IH by lia. apply store_other. lia.
Qed.

Lemma memset_loop_content n m d v i :
  0 <= i < Z.of_nat n -> memset_loop n m d v (d + i) = v.
Proof.
  revert m d i; induction n as [|k IH]; intros m d i Hi; [lia|].
  cbn [memset_loop].
  destruct (Z.eq_dec i 0) as [->|Hne].
  - rewrite Z.add_0_r, memset_loop_frame by lia. apply store_same.
  - replace (d + i) with (d + 1 + (i - 1)) by lia. apply IH. lia.
Qed.

(** X1: [memset] stores the low 8 bits of [c] in each of the [count] cells
    from [dest] on and changes no other cell; [bzero] stores zeros. *)
Theorem memset_fills (m : memory) (dest c count : Z) :
  (forall i, 0 <= i < count -> memset m dest c count (dest + i) = c mod 256) /\
  (forall x, x < dest \/ dest + count <= x -> memset m dest c count x = m x) /\
  (forall i, 0 <= i < count -> bzero m dest count (dest + i) = 0).
Proof.
  unfold bzero, memset, to_uchar. split; [|split].
  - intros i Hi. apply memset_loop_content. lia.
  - intros x Hx. apply memset_loop_frame. lia.
  - intros i Hi. rewrite memset_loop_content by lia. reflexivity.
Qed.

(** X2: [memcpy] is right when the destination is not above the source or
    the two ranges do not overlap: the destination range then holds what
    the source range held, and no other cell has changed. *)
Theorem memcpy_copies (m : memory) (dest src count : Z) :
  dest <= src \/ src + count <= dest ->
  load_range (memcpy m dest src count) dest (Z.to_nat count)
  = load_range m src (Z.to_nat count) /\
  (forall x, x < dest \/ dest + count <= x -> memcpy m dest src count x = m x).
Proof.
  intros Hds. split.
  - apply load_range_ext. intros i Hi. unfold memcpy.
    apply copy_forward_content; lia.
  - intros x Hx. now apply memcpy_frame.
Qed.

Lemma load_range_cons_eq m a n :
  load_range m a (S n) = m a :: load_range m (a + 1) n.
Proof. reflexivity. Qed.

(** X3: [memcmp] returns 0 exactly when the two ranges hold the same
    bytes; otherwise it returns the difference, as unsigned bytes, of the
    first pair that differs. *)
Theorem memcmp_first_difference (m : memory) (ptr1 ptr2 count : Z) :
  let n := Z.to_nat count in
  (memcmp m ptr1 ptr2 count = 0 <->
   map to_uchar (load_range m ptr1 n) = map to_uchar (load_range m ptr2 n)) /\
  (memcmp m ptr1 ptr2 count <> 0 ->
   exists i, 0 <= i < count /\
     (forall j, 0 <= j < i ->
                to_uchar (m (ptr1 + j)) = to_uchar (m (ptr2 + j))) /\
     memcmp m ptr1 ptr2 count
     = to_uchar (m (ptr1 + i)) - to_uchar (m (ptr2 + i))).
Proof.
  cbv zeta. unfold memcmp.
  assert (Hcount : Z.of_nat (Z.to_nat count) <= count \/ Z.to_nat count = O)
    by lia.
  revert Hcount. generalize (Z.to_nat count) as n. intros n.
  revert ptr1 ptr2 count.
  induction n as [|n IH]; intros p1 p2 count Hcount; cbn [memcmp_loop].
  - split; [split; reflexivity | intros H; now elim H].
  - assert (Hn : Z.of_nat (S n) <= count) by lia. clear Hcount.
    rewrite !load_range_cons_eq. cbn [map].
    destruct (Z.eqb_spec (to_uchar (m p1)) (to_uchar (m p2))) as [Heq|Hne];
      cbn [negb].
    + specialize (IH (p1 + 1) (p2 + 1) (count - 1)).
      destruct IH as [IH0 IH1]; [lia|]. split.
      * rewrite IH0. split; [intros ->; now rewrite Heq|].
        intros H. now injection H.
      * intros Hnz. destruct (IH1 Hnz) as (i & Hi & Hpre & Hres).
        exists (i + 1). split; [lia|]. split.
        -- intros j Hj. destruct (Z.eq_dec j 0) as [->|Hj0].
           ++ now rewrite !Z.add_0_r.
           ++ specialize (Hpre (j - 1)).
              replace (p1 + 1 + (j - 1)) with (p1 + j) in Hpre by lia.
              replace (p2 + 1 + (j - 1)) with (p2 + j) in Hpre by lia.
              apply Hpre. lia.
        -- rewrite Hres. f_equal; f_equal; f_equal; lia.
    + split.
      * split; [lia|]. intros H. injection H as H _. contradiction.
      * intros _. exists 0. rewrite !Z.add_0_r.
        split; [lia|]. split; [intros j Hj; lia | reflexivity].
Qed.

(** X4: [memchr] returns the address of the first of the [count] cells
    whose byte is [(unsigned char)c], and [NULL] when there is none. *)
Theorem memchr_first (m : memory) (ptr c count : Z) :
  (exists i, 0 <= i < count /\
     memchr m ptr c count = ptr + i /\
     to_uchar (m (ptr + i)) = to_uchar c /\
     forall j, 0 <= j < i -> to_uchar (m (ptr + j)) <> to_uchar c) \/
  (memchr m ptr c count = NULL /\
   forall j, 0 <= j < count -> to_uchar (m (ptr + j)) <> to_uchar c).
Proof.
  unfold memchr.
  assert (Hcount : forall j, 0 <= j < count -> j < Z.of_nat (Z.to_nat count))
    by lia.
  assert (Hcount' : Z.of_nat (Z.to_nat count) <= count \/ Z.to_nat count = O)
    by lia.
  revert Hcount Hcount'. generalize (Z.to_nat count) as n. intros n.
  revert ptr count.
  induction n as [|n IH]; intros p count Hcount Hcount'; cbn [memchr_loop].
  - right. split; [reflexivity|]. intros j Hj. specialize (Hcount j Hj).
    cbn in Hcount. lia.
  - destruct (Z.eqb_spec (to_uchar (m p)) (to_uchar c)) as [Heq|Hne].
    + left. exists 0. rewrite !Z.add_0_r.
      split; [lia|]. split; [reflexivity|]. split; [assumption|].
      intros j Hj. lia.
    + destruct (IH (p + 1) (count - 1)) as
          [(i & Hi & Hres & Hhit & Hpre) | (Hres & Hnone)].
      * intros j Hj. specialize (Hcount (j + 1)). lia.
      * lia.
      * left. exists (i + 1). split; [lia|].
        replace (p + (i + 1)) with (p + 1 + i) by lia.
        split; [assumption|]. split; [assumption|].
        intros j Hj. destruct (Z.eq_dec j 0) as [->|Hj0].
        -- now rewrite Z.add_0_r.
        -- replace (p + j) with (p + 1 + (j - 1)) by lia. apply Hpre. lia.
      * right. split; [assumption|].
        intros j Hj. destruct (Z.eq_dec j 0) as [->|Hj0].
        -- now rewrite Z.add_0_r.
        -- replace (p + j) with (p + 1 + (j - 1)) by lia. apply Hnone. lia.
Qed.

(** ** Strings in memory *)

Lemma string_at_nonzero m s l : string_at m s l -> Forall (fun c => c <> 0) l.
Proof.
  revert s; induction l as [|c l IH]; intros s H; constructor.
  - apply H.
  - apply (IH (s + 1)), H.
Qed.

Lemma string_at_cell m s l i :
  string_at m s l -> (i <= length l)%nat -> m (s + Z.of_nat i) = nth i l 0.
Proof.
  revert s i; induction l as [|c l IH]; intros s i H Hi.
  - destruct i; [|cbn in Hi; lia]. cbn in *. now rewrite Z.add_0_r.
  - destruct H as (Hc & _ & Hl). destruct i as [|i].
    + cbn. now rewrite Z.add_0_r.
    + cbn [nth]. rewrite <- (IH (s + 1)) by (assumption || cbn in Hi; lia).
      f_equal. lia.
Qed.

Lemma string_at_cstring m s l :
  string_at m s l -> cstring m s (Z.of_nat (length l)).
Proof.
  intros H. split; [lia|]. split.
  - intros i Hi.
    replace i with (Z.of_nat (Z.to_nat i)) by lia.
    rewrite (string_at_cell m s l) by (assumption || lia).
    pose proof (string_at_nonzero m s l H) as Hnz.
    rewrite Forall_forall in Hnz. apply Hnz, nth_In. lia.
  - rewrite (string_at_cell m s l) by (assumption || lia).
    apply nth_overflow. lia.
Qed.

Lemma cstring_string_at m s len :
  cstring m s len -> string_at m s (load_range m s (Z.to_nat len)).
Proof.
  intros (Hlen & Hrun & Hend).
  assert (Hn : len = Z.of_nat (Z.to_nat len)) by lia.
  revert Hn Hrun Hend. generalize (Z.to_nat len) as n. intros n.
  revert s len Hlen. induction n as [|n IH]; intros s len Hlen -> Hrun Hend.
  - cbn in *. now rewrite Z.add_0_r in Hend.
  - cbn [load_range string_at]. split; [reflexivity|]. split.
    + specialize (Hrun 0). rewrite Z.add_0_r in Hrun. apply Hrun. lia.
    + apply (IH (s + 1) (Z.of_nat n)); [lia | reflexivity | |].
      * intros i Hi. replace (s + 1 + i) with (s + (1 + i)) by lia.
        apply Hrun. lia.
      * rewrite <- Hend. f_equal. lia.
Qed.

(** A string is the same string wherever its cells, terminator included,
    are found again. *)
Lemma string_at_ext m m' s d l :
  string_at m s l ->
  (forall i, 0 <= i <= Z.of_nat (length l) -> m' (d + i) = m (s + i)) ->
  string_at m' d l.
Proof.
  revert s d; induction l as [|c l IH]; intros s d H Hsame.
  - cbn in *. specialize (Hsame 0). rewrite !Z.add_0_r in Hsame.
    rewrite Hsame by lia. exact H.
  - destruct H as (Hc & Hnz & Hl). cbn [string_at]. split; [|split].
    + specialize (Hsame 0). rewrite !Z.add_0_r in Hsame.
      rewrite Hsame by (cbn [length]; lia). exact Hc.
    + exact Hnz.
    + apply (IH (s + 1)); [exact Hl|]. intros i Hi.
      replace (d + 1 + i) with (d + (1 + i)) by lia.
      replace (s + 1 + i) with (s + (1 + i)) by lia.
      apply Hsame. cbn [length]. lia.
Qed.

Lemma string_at_app m m' s a b :
  string_at m s a ->
  (forall i, 0 <= i < Z.of_nat (length a) -> m' (s + i) = m (s + i)) ->
  string_at m' (s + Z.of_nat (length a)) b ->
  string_at m' s (a ++ b).
Proof.
  revert s; induction a as [|c a IH]; intros s Ha Hsame Hb.
  - cbn in *. now rewrite Z.add_0_r in Hb.
  - destruct Ha as (Hc & Hnz & Ha). cbn [app string_at]. split; [|split].
    + specialize (Hsame 0). rewrite !Z.add_0_r in Hsame.
      rewrite Hsame by (cbn [length]; lia). exact Hc.
    + exact Hnz.
    + apply IH; [exact Ha | |].
      * intros i Hi. replace (s + 1 + i) with (s + (1 + i)) by lia.
        apply Hsame. cbn [length]. lia.
      * replace (s + 1 + Z.of_nat (length a))
          with (s + Z.of_nat (length (c :: a))) by (cbn [length]; lia).
        exact Hb.
Qed.

Lemma scan_terminator_string fuel m s l :
  string_at m s l -> (length l < fuel)%nat ->
  scan_terminator fuel m s = Some (s + Z.of_nat (length l)).
Proof.
  intros H Hfuel. apply scan_terminator_cstring; [|assumption].
  now apply string_at_cstring.
Qed.

Lemma scan_terminator_sound fuel m s d :
  scan_terminator fuel m s = Some d -> cstring m s (d - s).
Proof.
  revert s; induction fuel as [|fuel IH]; intros s H; [discriminate|].
  cbn [scan_terminator] in H.
  destruct (Z.eqb_spec (m s) 0) as [H0|Hnz].
  - injection H as <-. split; [lia|]. split.
    + intros i Hi. lia.
    + now replace (s + (s - s)) with s by lia.
  - destruct (IH _ H) as (Hlen & Hrun & Hend).
    split; [lia|]. split.
    + intros i Hi. destruct (Z.eq_dec i 0) as [->|Hi0].
      * now rewrite Z.add_0_r.
      * replace (s + i) with (s + 1 + (i - 1)) by lia. apply Hrun. lia.
    + rewrite <- Hend. f_equal. lia.
Qed.

Lemma strlen_of_string fuel m s l :
  string_at m s l -> (length l < fuel)%nat ->
  strlen fuel m s = Some (Z.of_nat (length l)).
Proof.
  intros H Hfuel. unfold strlen.
  rewrite (scan_terminator_string fuel m s l) by assumption.
  f_equal. lia.
Qed.

(** X5: [strlen] and [wcslen] return the number of elements before the
    terminator: on the string [l], with fuel above its length, the result
    is [length l]; and whatever they return is the offset of the first
    zero cell. *)
Theorem strlen_counts (fuel : nat) (m : memory) (s : Z) (l : list Z) :
  (string_at m s l -> (length l < fuel)%nat ->
   strlen fuel m s = Some (Z.of_nat (length l)) /\
   wcslen fuel m s = Some (Z.of_nat (length l))) /\
  (forall n, strlen fuel m s = Some n -> cstring m s n).
Proof.
  split.
  - intros H Hfuel. split; [|unfold wcslen; fold (strlen fuel m s)];
      now apply strlen_of_string.
  - unfold strlen. intros n H.
    destruct (scan_terminator fuel m s) as [d|] eqn:Hscan;
      [|discriminate].
    injection H as <-. now apply (scan_terminator_sound fuel).
Qed.

(** The copy loop of [strcpy] copies the string and its terminator. *)
Lemma strcpy_loop_copies l :
  forall fuel m d src,
    string_at m src l -> (length l < fuel)%nat ->
    d <= src \/ src + Z.of_nat (length l) < d ->
    strcpy_loop fuel m d src = Some (copy_forward (S (length l)) m d src).
Proof.
  induction l as [|c l IH]; intros fuel m d src H Hfuel Hds;
    (destruct fuel as [|fuel]; [cbn in Hfuel; lia|]);
    cbn [strcpy_loop copy_forward length].
  - cbn in H. rewrite H. reflexivity.
  - destruct H as (Hc & Hnz & Hl). rewrite Hc.
    apply Z.eqb_neq in Hnz. rewrite Hnz.
    apply IH.
    + apply (string_at_ext m _ (src + 1)); [exact Hl|].
      intros i Hi. apply store_other. cbn [length] in Hds. lia.
    + cbn [length] in Hfuel. lia.
    + cbn [length] in Hds. lia.
Qed.

(** X6: [strcpy] and [wcscpy] leave the source string, terminator
    included, at the destination and write nothing else, provided that the
    destination does not start inside the source above its first
    element. *)
Theorem strcpy_copies (fuel : nat) (m : memory) (dest src : Z) (l : list Z) :
  string_at m src l -> (length l < fuel)%nat ->
  dest <= src \/ src + Z.of_nat (length l) < dest ->
  exists m',
    strcpy fuel m dest src = Some m' /\
    wcscpy fuel m dest src = Some m' /\
    string_at m' dest l /\
    (forall x, x < dest \/ dest + Z.of_nat (length l) < x -> m' x = m x).
Proof.
  intros H Hfuel Hds. unfold wcscpy, strcpy.
  rewrite (strcpy_loop_copies l) by assumption.
  eexists. split; [reflexivity|]. split; [reflexivity|]. split.
  - apply (string_at_ext m _ src); [exact H|]. intros i Hi.
    apply copy_forward_content; lia.
  - intros x Hx. apply copy_forward_frame. lia.
Qed.

(** X7: [strcat] leaves at the destination the destination string
    followed by the source string and a terminator, and changes nothing
    outside the cells it appends to. *)
Theorem strcat_appends
        (fuel : nat) (m : memory) (dest src : Z) (ld ls : list Z) :
  string_at m dest ld -> string_at m src ls ->
  (length ld < fuel)%nat -> (length ls < fuel)%nat ->
  dest + Z.of_nat (length ld) <= src
  \/ src + Z.of_nat (length ls) < dest + Z.of_nat (length ld) ->
  exists m',
    strcat fuel m dest src = Some m' /\
    string_at m' dest (ld ++ ls) /\
    (forall x, x < dest + Z.of_nat (length ld)
               \/ dest + Z.of_nat (length ld) + Z.of_nat (length ls) < x ->
               m' x = m x).
Proof.
  intros Hd Hs Hfd Hfs Hds. unfold strcat.
  rewrite (scan_terminator_string fuel m dest ld) by assumption.
  rewrite (strcpy_loop_copies ls) by assumption.
  eexists. split; [reflexivity|]. split.
  - apply (string_at_app m); [exact Hd | |].
    + intros i Hi. apply copy_forward_frame. lia.
    + apply (string_at_ext m _ src); [exact Hs|]. intros i Hi.
      apply copy_forward_content; lia.
  - intros x Hx. apply copy_forward_frame. lia.
Qed.

(** ** Comparison of strings *)

Lemma to_uchar_inj u v : is_char u -> is_char v -> to_uchar u = to_uchar v -> u = v.
Proof.
  unfold is_char, to_uchar. intros Hu Hv H.
  pose proof (Z.div_mod u 256). pose proof (Z.div_mod v 256).
  pose proof (Z.mod_pos_bound u 256). pose proof (Z.mod_pos_bound v 256).
  assert (u / 256 = v / 256 \/ u / 256 < v / 256 \/ v / 256 < u / 256) by lia.
  nia.
Qed.

Section Compare.

(** The value compared at the end: [f] is the cast applied to the two
    cells, one to one on the values [P] that the strings hold. *)
Variable f : Z -> Z.
Variable P : Z -> Prop.
Hypothesis f_inj : forall u v, P u -> P v -> f u = f v -> u = v.
Hypothesis P_0 : P 0.

Lemma strcmp_loop_symmetric l1 :
  forall fuel m s1 s2 l2,
    string_at m s1 l1 -> string_at m s2 l2 ->
    Forall P l1 -> Forall P l2 ->
    (length l1 < fuel)%nat -> (length l2 < fuel)%nat ->
    exists p1 p2,
      strcmp_loop fuel m s1 s2 = Some (p1, p2) /\
      strcmp_loop fuel m s2 s1 = Some (p2, p1) /\
      (f (m p1) - f (m p2) = 0 <-> l1 = l2).
Proof.
  induction l1 as [|x a IH]; intros fuel m s1 s2 l2 H1 H2 HP1 HP2 Hf1 Hf2;
    (destruct fuel as [|fuel]; [cbn in Hf1; lia|]);
    destruct l2 as [|y b]; cbn [strcmp_loop string_at length] in *.
  - exists s1, s2. rewrite H1, H2. cbn.
    split; [reflexivity|]. split; [reflexivity|]. split; [reflexivity | lia].
  - destruct H2 as (Hy & Hynz & Hb). exists s1, s2.
    rewrite H1, Hy. apply Z.eqb_neq in Hynz. rewrite Hynz.
    apply Z.eqb_neq in Hynz. cbn.
    split; [reflexivity|]. split; [reflexivity|]. split; [|discriminate].
    intros H. inversion HP2; subst. exfalso. apply Hynz. symmetry.
    apply f_inj; [assumption..|lia].
  - destruct H1 as (Hx & Hxnz & Ha). exists s1, s2.
    rewrite H2, Hx. apply Z.eqb_neq in Hxnz. rewrite Hxnz.
    apply Z.eqb_neq in Hxnz. cbn.
    split; [reflexivity|]. split; [reflexivity|]. split; [|discriminate].
    intros H. inversion HP1; subst. exfalso. apply Hxnz.
    apply f_inj; [assumption..|lia].
  - destruct H1 as (Hx & Hxnz & Ha). destruct H2 as (Hy & Hynz & Hb).
    rewrite Hx, Hy. rewrite (Z.eqb_sym y x).
    apply Z.eqb_neq in Hxnz, Hynz. rewrite Hxnz, Hynz.
    apply Z.eqb_neq in Hxnz, Hynz. cbn [negb andb].
    inversion HP1; subst. inversion HP2; subst.
    destruct (Z.eqb_spec (m s1) (m s2)) as [Heq|Hne].
    + destruct (IH fuel m (s1 + 1) (s2 + 1) b) as (p1 & p2 & Hl & Hr & Hiff);
        try assumption; try lia.
      exists p1, p2. split; [exact Hl|]. split; [exact Hr|].
      rewrite Hiff. split; [intros ->; now rewrite Heq|].
      intros H. now injection H.
    + exists s1, s2. split; [reflexivity|]. split; [reflexivity|]. split.
      * intros H. exfalso. apply Hne. apply f_inj; [assumption..|lia].
      * intros H. injection H as H _. contradiction.
Qed.

Lemma strncmp_loop_prefix n :
  forall m s1 s2 l1 l2,
    string_at m s1 l1 -> string_at m s2 l2 ->
    Forall P l1 -> Forall P l2 ->
    let '(p1, p2, count) := strncmp_loop n m s1 s2 in
    match count with O => 0 | S _ => f (m p1) - f (m p2) end = 0
    <-> firstn n l1 = firstn n l2.
Proof.
  induction n as [|n IH]; intros m s1 s2 l1 l2 H1 H2 HP1 HP2;
    cbn [strncmp_loop firstn]; [split; reflexivity|].
  destruct l1 as [|x a], l2 as [|y b]; cbn [string_at] in *.
  - rewrite H1. cbn [Z.eqb negb andb]. rewrite H1, H2.
    split; [reflexivity | lia].
  - destruct H2 as (Hy & Hynz & Hb). rewrite H1. cbn [Z.eqb negb andb].
    rewrite H1, Hy. split; [|discriminate].
    intros H. inversion HP2; subst. exfalso. apply Hynz. symmetry.
    apply f_inj; [assumption..|lia].
  - destruct H1 as (Hx & Hxnz & Ha). rewrite Hx, H2.
    apply Z.eqb_neq in Hxnz. rewrite Hxnz, Bool.andb_false_r.
    apply Z.eqb_neq in Hxnz. rewrite Hx, H2. split; [|discriminate].
    intros H. inversion HP1; subst. exfalso. apply Hxnz.
    apply f_inj; [assumption..|lia].
  - destruct H1 as (Hx & Hxnz & Ha). destruct H2 as (Hy & Hynz & Hb).
    apply Z.eqb_neq in Hxnz. rewrite Hx, Hxnz, Hy. cbn [negb andb].
    inversion HP1; subst. inversion HP2; subst.
    destruct (Z.eqb_spec (m s1) (m s2)) as [Heq|Hne].
    + specialize (IH m (s1 + 1) (s2 + 1) a b Ha Hb).
      destruct (strncmp_loop n m (s1 + 1) (s2 + 1)) as [[p1 p2] count].
      rewrite IH by assumption. split; [intros ->; now rewrite Heq|].
      intros H. now injection H.
    + split.
      * intros H. exfalso. apply Hne. apply f_inj; [assumption..|lia].
      * intros H. injection H as H _. contradiction.
Qed.

End Compare.

(** X8: [strcmp] and [wcscmp] return 0 exactly when the two strings are
    equal, and exchanging the arguments negates the result.  For [strcmp]
    the cells are compared as they are and subtracted as unsigned bytes,
    so the strings are taken in the range of [char]. *)
Theorem strcmp_equal_and_antisymmetric
        (fuel : nat) (m : memory) (s1 s2 : Z) (l1 l2 : list Z) :
  string_at m s1 l1 -> string_at m s2 l2 ->
  (length l1 < fuel)%nat -> (length l2 < fuel)%nat ->
  (exists w, wcscmp fuel m s1 s2 = Some w /\
             wcscmp fuel m s2 s1 = Some (- w) /\
             (w = 0 <-> l1 = l2)) /\
  (Forall is_char l1 -> Forall is_char l2 ->
   exists r, strcmp fuel m s1 s2 = Some r /\
             strcmp fuel m s2 s1 = Some (- r) /\
             (r = 0 <-> l1 = l2)).
Proof.
  intros H1 H2 Hf1 Hf2. split.
  - destruct (strcmp_loop_symmetric (fun x => x) (fun _ => True)
                (fun u v _ _ H => H) I l1 fuel m s1 s2 l2)
      as (p1 & p2 & Hl & Hr & Hiff); try assumption;
      try (apply Forall_forall; intros; exact I).
    unfold wcscmp. rewrite Hl, Hr. eexists. split; [reflexivity|].
    split; [f_equal; lia | exact Hiff].
  - intros Hc1 Hc2.
    destruct (strcmp_loop_symmetric to_uchar is_char to_uchar_inj
                ltac:(unfold is_char; lia) l1 fuel m s1 s2 l2)
      as (p1 & p2 & Hl & Hr & Hiff); try assumption.
    unfold strcmp. rewrite Hl, Hr. eexists. split; [reflexivity|].
    split; [f_equal; lia | exact Hiff].
Qed.

(** X9: [strncmp] and [wcsncmp] return 0 exactly when the two strings
    agree on their first [count] elements (on all of them, when they are
    shorter); in particular a [count] of 0 gives 0. *)
Theorem strncmp_bounded
        (m : memory) (s1 s2 count : Z) (l1 l2 : list Z) :
  string_at m s1 l1 -> string_at m s2 l2 ->
  (wcsncmp m s1 s2 count = 0
   <-> firstn (Z.to_nat count) l1 = firstn (Z.to_nat count) l2) /\
  (Forall is_char l1 -> Forall is_char l2 ->
   (strncmp m s1 s2 count = 0
    <-> firstn (Z.to_nat count) l1 = firstn (Z.to_nat count) l2)).
Proof.
  intros H1 H2. split.
  - pose proof (strncmp_loop_prefix (fun x => x) (fun _ => True)
                  (fun u v _ _ H => H) I (Z.to_nat count) m s1 s2 l1 l2 H1 H2)
      as Hspec.
    unfold wcsncmp.
    destruct (strncmp_loop (Z.to_nat count) m s1 s2) as [[p1 p2] c].
    apply Hspec; apply Forall_forall; intros; exact I.
  - intros Hc1 Hc2.
    pose proof (strncmp_loop_prefix to_uchar is_char to_uchar_inj
                  ltac:(unfold is_char; lia)
                  (Z.to_nat count) m s1 s2 l1 l2 H1 H2 Hc1 Hc2) as Hspec.
    unfold strncmp.
    destruct (strncmp_loop (Z.to_nat count) m s1 s2) as [[p1 p2] c].
    exact Hspec.
Qed.

(** ** Search in strings *)

Ltac chr_loop_step IH fuel m s Hl :=
  (* one round of a character search that goes on to the next cell *)
  let i := fresh "i" in
  let Hi := fresh "Hi" in
  let Hhit := fresh "Hhit" in
  let Hpre := fresh "Hpre" in
  let Hres := fresh "Hres" in
  let Hnone := fresh "Hnone" in
  destruct (IH fuel m (s + 1) Hl ltac:(lia))
    as [(i & Hi & Hhit & Hpre & Hres) | (Hnone & Hres)];
  [ left; exists (S i); cbn [length nth];
    split; [lia|]; split; [exact Hhit|]; split;
    [ intros [|j] Hj; cbn [nth]; [assumption | apply Hpre; lia]
    | rewrite Hres; f_equal; lia ]
  | right; split;
    [ intros [Hin|Hin]; [congruence | contradiction]
    | rewrite Hres; destruct (_ =? 0); [f_equal; cbn [length]; lia | reflexivity] ] ].

Lemma char_eqb_to_char x c :
  is_byte x -> (char_eqb x c = true <-> to_char x = to_char c).
Proof.
  unfold is_byte, char_eqb, to_char, to_uchar, wrap_signed.
  change (2 ^ (8 - 1)) with 128. change (2 ^ 8) with 256.
  intros Hx. rewrite Bool.orb_true_iff, !Z.eqb_eq.
  Z.div_mod_to_equations. lia.
Qed.

Lemma char_eqb_not_to_char x c :
  is_byte x -> (char_eqb x c = false <-> to_char x <> to_char c).
Proof.
  intros Hx. rewrite <- (char_eqb_to_char x c Hx).
  destruct (char_eqb x c); split; congruence.
Qed.

(** For a [c] from 0 to 127 the cast changes nothing. *)
Lemma char_eqb_ascii x c : 0 <= c <= 127 -> char_eqb x c = (x =? c).
Proof.
  intros Hc. unfold char_eqb, to_char, to_uchar, wrap_signed.
  change (2 ^ (8 - 1)) with 128. change (2 ^ 8) with 256.
  rewrite (Z.mod_small c) by lia.
  rewrite (Z.mod_small (c + 128)) by lia.
  replace (c + 128 - 128) with c by lia. apply Bool.orb_diag.
Qed.

Lemma to_char_zero x : is_byte x -> to_char x = 0 -> x = 0.
Proof.
  unfold is_byte, to_char, wrap_signed.
  change (2 ^ (8 - 1)) with 128. change (2 ^ 8) with 256.
  intros Hx. Z.div_mod_to_equations. lia.
Qed.

Lemma strchr_loop_first c l :
  forall fuel m s,
    string_at m s l -> (length l < fuel)%nat ->
    (exists i, (i < length l)%nat /\ char_eqb (nth i l 0) c = true /\
               (forall j, (j < i)%nat -> char_eqb (nth j l 0) c = false) /\
               strchr_loop fuel m s c = Some (s + Z.of_nat i)) \/
    (Forall (fun x => char_eqb x c = false) l /\
     strchr_loop fuel m s c
     = Some (if c =? 0 then s + Z.of_nat (length l) else NULL)).
Proof.
  induction l as [|x l IH]; intros fuel m s H Hfuel;
    (destruct fuel as [|fuel]; [cbn in Hfuel; lia|]);
    cbn [strchr_loop string_at length] in *.
  - right. rewrite H. cbn. split; [constructor|].
    destruct (c =? 0); [f_equal; f_equal; lia | reflexivity].
  - destruct H as (Hx & Hnz & Hl). rewrite Hx.
    apply Z.eqb_neq in Hnz. rewrite Hnz.
    destruct (char_eqb x c) eqn:Heq.
    + left. exists O. cbn. rewrite Z.add_0_r.
      split; [lia|]. split; [assumption|]. split; [intros; lia | reflexivity].
    + destruct (IH fuel m (s + 1) Hl ltac:(lia))
        as [(i & Hi & Hhit & Hpre & Hres) | (Hnone & Hres)].
      * left. exists (S i). cbn [nth]. split; [lia|]. split; [exact Hhit|].
        split; [|rewrite Hres; f_equal; lia].
        intros [|j] Hj; cbn [nth]; [assumption | apply Hpre; lia].
      * right. split; [now constructor|]. rewrite Hres.
        destruct (c =? 0); [f_equal; lia | reflexivity].
Qed.

(** The search for a [c] from 0 to 127, the cells of any value. *)
Lemma strchr_loop_first_ascii c l :
  forall fuel m s,
    0 <= c <= 127 ->
    string_at m s l -> (length l < fuel)%nat ->
    (exists i, (i < length l)%nat /\ nth i l 0 = c /\
               (forall j, (j < i)%nat -> nth j l 0 <> c) /\
               strchr_loop fuel m s c = Some (s + Z.of_nat i)) \/
    (~ In c l /\
     strchr_loop fuel m s c
     = Some (if c =? 0 then s + Z.of_nat (length l) else NULL)).
Proof.
  intros fuel m s Hc H Hfuel.
  destruct (strchr_loop_first c l fuel m s H Hfuel)
    as [(i & Hi & Hhit & Hpre & Hres) | (Hnone & Hres)].
  - left. exists i. rewrite char_eqb_ascii in Hhit by assumption.
    split; [exact Hi|]. split; [now apply Z.eqb_eq|]. split; [|exact Hres].
    intros j Hj. specialize (Hpre j Hj).
    rewrite char_eqb_ascii in Hpre by assumption. now apply Z.eqb_neq.
  - right. split; [|exact Hres]. intros Hin.
    rewrite Forall_forall in Hnone. specialize (Hnone c Hin).
    rewrite char_eqb_ascii, Z.eqb_refl in Hnone by assumption.
    discriminate.
Qed.

Lemma wcschr_first c l :
  forall fuel m s,
    string_at m s l -> (length l < fuel)%nat ->
    (exists i, (i < length l)%nat /\ nth i l 0 = c /\
               (forall j, (j < i)%nat -> nth j l 0 <> c) /\
               wcschr fuel m s c = Some (s + Z.of_nat i)) \/
    (~ In c l /\
     wcschr fuel m s c
     = Some (if c =? 0 then s + Z.of_nat (length l) else NULL)).
Proof.
  induction l as [|x l IH]; intros fuel m s H Hfuel;
    (destruct fuel as [|fuel]; [cbn in Hfuel; lia|]);
    cbn [wcschr string_at length] in *.
  - right. rewrite H. cbn. split; [tauto|].
    destruct (c =? 0); [f_equal; f_equal; lia | reflexivity].
  - destruct H as (Hx & Hnz & Hl). rewrite Hx.
    apply Z.eqb_neq in Hnz. rewrite Hnz.
    destruct (Z.eqb_spec x c) as [Heq|Hne].
    + left. exists O. cbn. rewrite Z.add_0_r.
      split; [lia|]. split; [assumption|]. split; [intros; lia | reflexivity].
    + chr_loop_step IH fuel m s Hl.
Qed.

(** X10: on the string of bytes [l], [strchr] returns the address of the
    first element that is, as a [char], equal to [(char)c]; when there is
    none it returns the address of the terminator if [c] is 0 and [NULL]
    otherwise, also for a [c] that is not 0 but is cast to 0.  [wcschr]
    does the same on a wide string, without a cast. *)
Theorem strchr_first_occurrence
        (fuel : nat) (m : memory) (s c : Z) (l : list Z) :
  string_at m s l -> (length l < fuel)%nat ->
  (Forall is_byte l ->
   (exists i, (i < length l)%nat /\ to_char (nth i l 0) = to_char c /\
              (forall j, (j < i)%nat -> to_char (nth j l 0) <> to_char c) /\
              strchr fuel m s c = Some (s + Z.of_nat i)) \/
   ((forall x, In x l -> to_char x <> to_char c) /\
    strchr fuel m s c
    = Some (if c =? 0 then s + Z.of_nat (length l) else NULL))) /\
  ((exists i, (i < length l)%nat /\ nth i l 0 = c /\
              (forall j, (j < i)%nat -> nth j l 0 <> c) /\
              wcschr fuel m s c = Some (s + Z.of_nat i)) \/
   (~ In c l /\
    wcschr fuel m s c
    = Some (if c =? 0 then s + Z.of_nat (length l) else NULL))) /\
  (Forall is_byte l ->
   c <> 0 -> to_char c = 0 -> strchr fuel m s c = Some NULL).
Proof.
  intros H Hfuel.
  assert (Hchr : Forall is_byte l ->
            (exists i, (i < length l)%nat /\
                       to_char (nth i l 0) = to_char c /\
                       (forall j, (j < i)%nat ->
                                  to_char (nth j l 0) <> to_char c) /\
                       strchr fuel m s c = Some (s + Z.of_nat i)) \/
            ((forall x, In x l -> to_char x <> to_char c) /\
             strchr fuel m s c
             = Some (if c =? 0 then s + Z.of_nat (length l) else NULL))).
  { intros Hbytes. rewrite Forall_forall in Hbytes.
    destruct (strchr_loop_first c l fuel m s H Hfuel)
      as [(i & Hi & Hhit & Hpre & Hres) | (Hnone & Hres)].
    - left. exists i. split; [exact Hi|]. split; [|split; [|exact Hres]].
      + apply char_eqb_to_char; [apply Hbytes; now apply nth_In | exact Hhit].
      + intros j Hj. apply char_eqb_not_to_char;
          [apply Hbytes; apply nth_In; lia | now apply Hpre].
    - right. split; [|exact Hres]. intros x Hx.
      rewrite Forall_forall in Hnone.
      apply char_eqb_not_to_char; [now apply Hbytes | now apply Hnone]. }
  split; [exact Hchr|]. split.
  - now apply wcschr_first.
  - intros Hbytes Hc Hcast.
    destruct (Hchr Hbytes) as [(i & Hi & Hhit & _) | (_ & Hres)].
    + exfalso. pose proof (string_at_nonzero m s l H) as Hnz.
      rewrite Forall_forall in Hnz, Hbytes.
      apply (Hnz (nth i l 0)); [now apply nth_In|].
      apply to_char_zero; [apply Hbytes; now apply nth_In | congruence].
    + rewrite Hres. apply Z.eqb_neq in Hc. now rewrite Hc.
Qed.

Lemma strrchr_loop_last c l :
  forall fuel m s last,
    string_at m s l -> (length l < fuel)%nat ->
    exists r,
      strrchr_loop fuel m s c last = Some r /\
      (c = 0 -> r = s + Z.of_nat (length l)) /\
      (c <> 0 ->
       (exists i, (i < length l)%nat /\ char_eqb (nth i l 0) c = true /\
                  (forall j, (i < j < length l)%nat ->
                             char_eqb (nth j l 0) c = false) /\
                  r = s + Z.of_nat i) \/
       (Forall (fun x => char_eqb x c = false) l /\ r = last)).
Proof.
  induction l as [|x l IH]; intros fuel m s last H Hfuel;
    (destruct fuel as [|fuel]; [cbn in Hfuel; lia|]);
    cbn [strrchr_loop string_at length] in *.
  - rewrite H. cbn [Z.eqb]. eexists. split; [reflexivity|]. split.
    + intros ->. cbn. lia.
    + intros Hc. apply Z.eqb_neq in Hc. rewrite Hc. right.
      split; [constructor | reflexivity].
  - destruct H as (Hx & Hnz & Hl). rewrite Hx.
    apply Z.eqb_neq in Hnz. rewrite Hnz.
    destruct (IH fuel m (s + 1) (if char_eqb x c then s else last) Hl
                 ltac:(lia)) as (r & Hr & H0 & Hlast).
    exists r. split; [exact Hr|]. split.
    + intros Hc. rewrite (H0 Hc). lia.
    + intros Hc. destruct (Hlast Hc) as [(i & Hi & Hhit & Hpost & Hres) | (Hnone & Hres)].
      * left. exists (S i). cbn [nth]. split; [lia|]. split; [exact Hhit|].
        split; [|lia]. intros [|j] Hj; [lia|]. cbn [nth]. apply Hpost. lia.
      * destruct (char_eqb x c) eqn:Heq.
        -- left. exists O. cbn [nth]. split; [lia|]. split; [exact Heq|].
           split; [|lia]. intros [|j] Hj; [lia|]. cbn [nth].
           rewrite Forall_forall in Hnone. apply Hnone. apply nth_In. lia.
        -- right. split; [now constructor | exact Hres].
Qed.

(** X11: on the string of bytes [l], [strrchr] returns the address of the
    last element that is, as a [char], equal to [(char)c], the address of
    the terminator when [c] is 0, and [NULL] when [c] is not 0 and no
    element is equal to it. *)
Theorem strrchr_last_occurrence
        (fuel : nat) (m : memory) (s c : Z) (l : list Z) :
  string_at m s l -> Forall is_byte l -> (length l < fuel)%nat ->
  exists r,
    strrchr fuel m s c = Some r /\
    (c = 0 -> r = s + Z.of_nat (length l)) /\
    (c <> 0 ->
     (exists i, (i < length l)%nat /\ to_char (nth i l 0) = to_char c /\
                (forall j, (i < j < length l)%nat ->
                           to_char (nth j l 0) <> to_char c) /\
                r = s + Z.of_nat i) \/
     ((forall x, In x l -> to_char x <> to_char c) /\ r = NULL)).
Proof.
  intros H Hbytes Hfuel. rewrite Forall_forall in Hbytes.
  destruct (strrchr_loop_last c l fuel m s NULL H Hfuel)
    as (r & Hr & H0 & Hlast).
  exists r. split; [exact Hr|]. split; [exact H0|].
  intros Hc.
  destruct (Hlast Hc) as [(i & Hi & Hhit & Hpost & Hres) | (Hnone & Hres)].
  - left. exists i. split; [exact Hi|]. split; [|split; [|exact Hres]].
    + apply char_eqb_to_char; [apply Hbytes; now apply nth_In | exact Hhit].
    + intros j Hj. apply char_eqb_not_to_char;
        [apply Hbytes; apply nth_In; lia | now apply Hpost].
  - right. split; [|exact Hres]. intros x Hx.
    rewrite Forall_forall in Hnone.
    apply char_eqb_not_to_char; [now apply Hbytes | now apply Hnone].
Qed.




(** ** Spans *)



(** The condition on which the span loop stops at a character. *)
Local Notation "'stops' b ls c" :=
  (if b then In c ls else ~ In c ls) (at level 10, b, ls, c at level 9).





(** ** Duplication *)

Section DuplicateProperties.
Context {os : Win32}.

(** X15: [strdup] asks for one cell more than the length of the string;
    when the allocation fails it returns [NULL] and leaves the memory
    alone; when it succeeds, away from the string, the new block holds the
    string and its terminator and the source is intact. *)
Theorem strdup_copies
        (fuel : nat) (st : process Heap) (str dup : Z) (h : Heap)
        (l : list Z) :
  string_at (mem st) str l -> (length l < fuel)%nat ->
  Z.of_nat (length l) + 1 < SIZE_MOD ->
  HeapAlloc (heap st) 0 (Z.of_nat (length l) + 1) = (dup, h) ->
  (dup = NULL -> strdup fuel st str = Some (NULL, mkProcess h (mem st))) /\
  (dup <> NULL ->
   dup + Z.of_nat (length l) < str \/ str + Z.of_nat (length l) < dup ->
   exists st',
     strdup fuel st str = Some (dup, st') /\
     _strdup fuel st str = Some (dup, st') /\
     heap st' = h /\
     string_at (mem st') dup l /\
     string_at (mem st') str l /\
     (forall x, x < dup \/ dup + Z.of_nat (length l) < x ->
                mem st' x = mem st x)).
Proof.
  intros Hstr Hfuel Hfit Halloc.
  assert (Hlen : strlen fuel (mem st) str = Some (Z.of_nat (length l)))
    by (apply strlen_of_string; assumption).
  unfold _strdup, strdup, malloc. rewrite Hlen.
  rewrite to_size_t_small by lia.
  replace (Z.of_nat (length l) + 1 =? 0) with false
    by (symmetry; apply Z.eqb_neq; lia).
  rewrite Halloc. split.
  - intros ->. reflexivity.
  - intros Hdup Hdis. apply Z.eqb_neq in Hdup. rewrite Hdup. cbn [negb heap mem].
    eexists. split; [reflexivity|]. split; [reflexivity|].
    cbn [heap mem]. split; [reflexivity|]. split; [|split].
    + apply (string_at_ext (mem st) _ str); [exact Hstr|]. intros i Hi.
      apply memcpy_content; lia.
    + apply (string_at_ext (mem st) _ str); [exact Hstr|]. intros i Hi.
      apply memcpy_frame. lia.
    + intros x Hx. apply memcpy_frame. lia.
Qed.

End DuplicateProperties.

(** ** Character classification *)

From Stdlib Require Import ZifyBool.

Ltac ctype :=
  intros;
  unfold ispunct, isgraph, isalnum, isxdigit, isalpha, isdigit, isupper,
    islower, isprint, iscntrl, isspace, tolower, toupper, is_digit_in,
    digit_value in *;
  repeat match goal with
         | |- context [if ?b then _ else _] => destruct b eqn:?
         | H : context [if ?b then _ else _] |- _ => destruct b eqn:?
         end;
  cbn [negb andb orb] in *; try lia.

(** X16: only the ASCII range is classified: outside of 0..127 every
    predicate is false and the case conversions change nothing. *)
Theorem classification_ascii_only (c : Z) :
  c < 0 \/ 127 < c ->
  isspace c = false /\ isdigit c = false /\ isalpha c = false /\
  isalnum c = false /\ isupper c = false /\ islower c = false /\
  isxdigit c = false /\ isprint c = false /\ iscntrl c = false /\
  ispunct c = false /\ isgraph c = false /\
  tolower c = c /\ toupper c = c.
Proof. intros Hc. repeat split; ctype. Qed.

(** X17: the case conversions are inverse to each other on letters: an
    upper-case letter is made lower-case and back, a lower-case letter is
    made upper-case and back, and anything that is not a letter is left
    alone. *)
Theorem case_conversion_round_trip (c : Z) :
  (isupper c = true ->
   islower (tolower c) = true /\ toupper (tolower c) = c) /\
  (islower c = true ->
   isupper (toupper c) = true /\ tolower (toupper c) = c) /\
  (isalpha c = false -> tolower c = c /\ toupper c = c) /\
  tolower (tolower c) = tolower c /\
  toupper (toupper c) = toupper c.
Proof. repeat split; ctype. Qed.

(** X18: the classes fit together: a printable character is a space, a
    letter or digit, or a punctuation character, and exactly one of these;
    a letter is upper-case or lower-case and not both; and within 0..127
    a character is a control character exactly when it is not
    printable. *)
Theorem classification_partition (c : Z) :
  isprint c = (c =? 32) || isalnum c || ispunct c /\
  isgraph c = isalnum c || ispunct c /\
  isalnum c && ispunct c = false /\
  isalpha c = isupper c || islower c /\
  isupper c && islower c = false /\
  isalpha c && isdigit c = false /\
  (0 <= c <= 127 -> iscntrl c = negb (isprint c)).
Proof. repeat split; ctype. Qed.

(** X19: the parsers and the classification agree on digits: the decimal
    digits are the characters [isdigit] accepts, the hexadecimal ones
    those [isxdigit] accepts, the digits of base 36 those [isalnum]
    accepts; and a letter has the same value as a digit in either case. *)
Theorem digits_and_classification (c : Z) :
  is_digit_in 10 c = isdigit c /\
  is_digit_in 16 c = isxdigit c /\
  is_digit_in 36 c = isalnum c /\
  digit_value (toupper c) = digit_value c /\
  digit_value (tolower c) = digit_value c.
Proof. repeat split; ctype; f_equal; lia. Qed.

(** ** Absolute values *)

(** X20: [abs], [labs] and [llabs] return the absolute value of every
    argument except the least one of the type, whose negation wraps: the
    result is then that least value, which is negative. *)
Theorem abs_least_value_wraps (n : Z) :
  (- 2 ^ 31 < n < 2 ^ 31 -> abs n = Z.abs n /\ labs n = Z.abs n) /\
  (- 2 ^ 63 < n < 2 ^ 63 -> llabs n = Z.abs n) /\
  abs (- 2 ^ 31) = - 2 ^ 31 /\
  labs (- 2 ^ 31) = - 2 ^ 31 /\
  llabs (- 2 ^ 63) = - 2 ^ 63.
Proof.
  split; [|split; [|repeat split; reflexivity]].
  - intros Hn. unfold abs, labs, wrap_signed.
    destruct (Z.ltb_spec n 0); [|lia].
    change (2 ^ (32 - 1)) with (2 ^ 31) in *.
    rewrite Z.mod_small by (change (2 ^ 32) with (2 * 2 ^ 31); lia). lia.
  - intros Hn. unfold llabs, wrap_signed.
    destruct (Z.ltb_spec n 0); [|lia].
    change (2 ^ (64 - 1)) with (2 ^ 63) in *.
    rewrite Z.mod_small by (change (2 ^ 64) with (2 * 2 ^ 63); lia). lia.
Qed.

(** ** Binary search *)

Section SearchProperties.

Variable compar : memory -> Z -> Z -> Z.
Variable m : memory.
Variables key arr size : Z.

Local Notation "'f'" := (fun i => compar m key (arr + i * size)).

Lemma bsearch_loop_spec fuel :
  forall low high num,
    0 <= low -> high <= num ->
    (Z.to_nat (high - low) < fuel)%nat ->
    exists r,
      bsearch_loop compar fuel m key arr size low high = Some r /\
      ((exists i, low <= i < high /\ r = arr + i * size /\ f i = 0) \/
       (r = NULL /\
        (key_sorted f num -> forall i, low <= i < high -> f i <> 0))).
Proof.
  induction fuel as [|fuel IH]; intros low high num Hlow Hhigh Hfuel; [lia|].
  cbn [bsearch_loop].
  destruct (Z.ltb_spec low high) as [Hlt|Hge].
  2:{ exists NULL. split; [reflexivity|]. right. split; [reflexivity|].
      intros _ i Hi. lia. }
  set (mid := low + (high - low) / 2).
  assert (Hmid : low <= mid < high).
  { subst mid. pose proof (Z.div_mod (high - low) 2).
    pose proof (Z.mod_pos_bound (high - low) 2). lia. }
  destruct (Z.ltb_spec (compar m key (arr + mid * size)) 0) as [Hneg|Hnneg].
  - destruct (IH low mid num) as (r & Hr & Hres); try lia.
    exists r. split; [exact Hr|].
    destruct Hres as [(i & Hi & Hri & Hfi) | (Hnull & Hnone)].
    + left. exists i. split; [lia|]. auto.
    + right. split; [exact Hnull|]. intros Hsorted i Hi.
      destruct (Z_lt_le_dec i mid) as [Hlo|Hhi].
      * apply Hnone; [exact Hsorted | lia].
      * destruct (Hsorted mid i) as [Hfwd _]; cbv beta in *; lia.
  - destruct (Z.gtb_spec (compar m key (arr + mid * size)) 0) as [Hpos|Hnpos].
    + destruct (IH (mid + 1) high num) as (r & Hr & Hres); try lia.
      exists r. split; [exact Hr|].
      destruct Hres as [(i & Hi & Hri & Hfi) | (Hnull & Hnone)].
      * left. exists i. split; [lia|]. auto.
      * right. split; [exact Hnull|]. intros Hsorted i Hi.
        destruct (Z_lt_le_dec mid i) as [Hhi|Hlo].
        -- apply Hnone; [exact Hsorted | lia].
        -- destruct (Hsorted i mid) as [_ Hbwd]; cbv beta in *; lia.
    + exists (arr + mid * size). split; [reflexivity|].
      left. exists mid. split; [lia|]. split; [reflexivity|]. cbv beta. lia.
Qed.

End SearchProperties.

(** X21: [bsearch] always terminates within its [num + 1] rounds.  What it
    returns is either the address of an element of the array that the
    comparator reports equal to the key, or [NULL]; and on an array
    sorted for the key, [NULL] is returned only when no element is equal
    to the key. *)
Theorem bsearch_finds
        (compar : memory -> Z -> Z -> Z) (m : memory) (key base num size : Z) :
  exists r,
    bsearch compar m key base num size = Some r /\
    ((exists i, 0 <= i < num /\ r = base + i * size /\
                compar m key (base + i * size) = 0) \/
     (r = NULL /\
      (key_sorted (fun i => compar m key (base + i * size)) num ->
       forall i, 0 <= i < num -> compar m key (base + i * size) <> 0))).
Proof.
  unfold bsearch.
  apply (bsearch_loop_spec compar m key base size (S (Z.to_nat num)) 0 num num);
    lia.
Qed.

Lemma StronglySorted_nth {A} (R : A -> A -> Prop) l d :
  StronglySorted R l ->
  forall i j, (i < j < length l)%nat -> R (nth i l d) (nth j l d).
Proof.
  induction 1 as [|a l Hs IH Ha]; intros i j Hij; [cbn in Hij; lia|].
  destruct j as [|j]; [lia|]. destruct i as [|i]; cbn [nth].
  - rewrite Forall_forall in Ha. apply Ha, nth_In. cbn in Hij. lia.
  - apply IH. cbn in Hij. lia.
Qed.

Lemma elements_nth m arr size num i :
  (i < num)%nat ->
  nth i (elements m arr size num) []
  = load_range m (arr + Z.of_nat i * size) (Z.to_nat size).
Proof.
  intros Hi. unfold elements.
  rewrite (nth_indep _ [] (load_range m (arr + Z.of_nat 0 * size) (Z.to_nat size)))
    by (rewrite length_map, length_seq; exact Hi).
  rewrite (map_nth (fun i => load_range m (arr + Z.of_nat i * size) (Z.to_nat size))).
  rewrite seq_nth by exact Hi. reflexivity.
Qed.

Section SortThenSearch.
Context {os : Win32}.

Variable compar : memory -> Z -> Z -> Z.
Variable cmp : list Z -> list Z -> Z.
Hypothesis cmp_ok : total_preorder cmp.

Lemma cmp_refl x : cmp x x = 0.
Proof.
  pose proof (proj1 (cmp_flip cmp cmp_ok x x)).
  pose proof (proj2 (cmp_flip cmp cmp_ok x x)). lia.
Qed.

Lemma cmp_before_later x a b :
  cmp a b <= 0 -> (cmp x a < 0 -> cmp x b < 0) /\ (0 < cmp x b -> 0 < cmp x a).
Proof.
  intros Hab. split.
  - intros Hxa. destruct (Z_lt_le_dec (cmp x b) 0) as [|Hge]; [assumption|].
    exfalso.
    assert (Hbx : cmp b x <= 0).
    { destruct (Z.eq_dec (cmp x b) 0) as [H0|Hn0].
      - now apply (cmp_eq_flip cmp cmp_ok).
      - apply Z.lt_le_incl, (cmp_flip cmp cmp_ok). lia. }
    pose proof (cmp_trans cmp cmp_ok a b x Hab Hbx).
    apply (cmp_flip cmp cmp_ok) in Hxa. lia.
  - intros Hxb. destruct (Z_lt_le_dec 0 (cmp x a)) as [|Hle]; [assumption|].
    pose proof (cmp_trans cmp cmp_ok x a b Hle Hab). lia.
Qed.

(** X22: sorting and searching compose: after [qsort], under the
    conditions of its correctness, [bsearch] with the same comparator and
    a key equal to an element of the original array returns the address
    of an element of the array that the comparator reports equal to the
    key. *)
Theorem qsort_then_bsearch
        (st : process Heap) (base num size temp key : Z) (h : Heap)
        (x : list Z) :
  0 <= size -> 0 <= num ->
  compar_reads compar cmp size ->
  HeapAlloc (heap st) 0 (if size =? 0 then 1 else size) = (temp, h) ->
  temp <> NULL ->
  temp + size <= base \/ base + num * size <= temp ->
  In x (elements (mem st) base size (Z.to_nat num)) ->
  let m' := mem (qsort compar st base num size) in
  load_range m' key (Z.to_nat size) = x ->
  exists i, 0 <= i < num /\
    bsearch compar m' key base num size = Some (base + i * size) /\
    compar m' key (base + i * size) = 0.
Proof.
  intros Hsize Hnum Hreads Halloc Htemp Hdis Hin m' Hkey.
  set (before := elements (mem st) base size (Z.to_nat num)) in *.
  set (after := elements m' base size (Z.to_nat num)).
  assert (Hafter : after = rev (isort_rev cmp [] before))
    by (apply (qsort_elements compar cmp st base num size temp h); assumption).
  assert (Hsorted : StronglySorted (fun a b => cmp a b <= 0) after).
  { rewrite Hafter. apply StronglySorted_rev.
    apply isort_rev_sorted; [assumption | constructor]. }
  assert (Hperm : Permutation before after)
    by (rewrite Hafter; apply (isort_rev_perm cmp [] before)).
  assert (Hlen : length after = Z.to_nat num) by apply elements_length.
  assert (Hf : forall i, 0 <= i < num ->
             compar m' key (base + i * size) = cmp x (nth (Z.to_nat i) after [])).
  { intros i Hi. rewrite Hreads, Hkey. unfold after.
    rewrite elements_nth by lia. do 3 f_equal. lia. }
  destruct (bsearch_loop_spec compar m' key base size
              (S (Z.to_nat num)) 0 num num ltac:(lia) ltac:(lia) ltac:(lia))
    as (r & Hr & [(i & Hi & Hri & Hzero) | (Hnull & Hnone)]);
    fold (bsearch compar m' key base num size) in Hr.
  - exists i. subst r. auto.
  - exfalso.
    apply (Permutation_in _ Hperm) in Hin.
    destruct (In_nth _ _ [] Hin) as (k & Hk & Hnth).
    apply (Hnone) with (i := Z.of_nat k); [|lia|].
    + intros i j Hij Hj. rewrite !Hf by lia.
      apply cmp_before_later.
      destruct (Z.eq_dec i j) as [->|Hne]; [rewrite cmp_refl; lia|].
      apply (StronglySorted_nth _ after [] Hsorted). lia.
    + rewrite Hf by lia. rewrite Nat2Z.id, Hnth. apply cmp_refl.
Qed.

End SortThenSearch.

(** ** The value of a parse *)

Lemma wrap_signed_small bits x :
  0 < bits -> - 2 ^ (bits - 1) <= x < 2 ^ (bits - 1) -> wrap_signed bits x = x.
Proof.
  intros Hb Hx. unfold wrap_signed.
  assert (H2 : 2 ^ bits = 2 * 2 ^ (bits - 1)).
  { replace bits with (Z.succ (bits - 1)) at 1 by lia.
    apply Z.pow_succ_r. lia. }
  rewrite Z.mod_small by lia. lia.
Qed.

Lemma is_digit_in_inv base c :
  is_digit_in base c = true ->
  c <> 0 /\ exists digit, digit_value c = Some digit /\ 0 <= digit < base /\
                          48 <= c <= 122.
Proof.
  unfold is_digit_in, digit_value. intros H.
  split; [lia|].
  destruct ((c >=? 48) && (c <=? 57)) eqn:H1;
    [eexists; split; [reflexivity | lia]|].
  destruct ((c >=? 97) && (c <=? 122)) eqn:H2;
    [eexists; split; [reflexivity | lia]|].
  destruct ((c >=? 65) && (c <=? 90)) eqn:H3;
    [eexists; split; [reflexivity | lia]|].
  cbn in H. lia.
Qed.

Lemma digits_value_grows base ds :
  forall acc,
    Forall (fun c => is_digit_in base c = true) ds -> 0 <= acc ->
    acc <= digits_value base ds acc.
Proof.
  induction ds as [|c ds IH]; intros acc Hds Hacc; cbn [digits_value]; [lia|].
  inversion Hds as [|? ? Hc Hrest]; subst.
  destruct (is_digit_in_inv base c Hc) as (_ & digit & Hd & Hrange & _).
  rewrite Hd. specialize (IH (acc * base + digit) Hrest). nia.
Qed.

(** The conversion loop reads a run of digits to their value, as long as
    the value fits the accumulator. *)
Lemma convert_digits bits base rest ds :
  forall acc p,
    0 < bits ->
    Forall (fun c => is_digit_in base c = true) ds ->
    is_digit_in base (hd 0 rest) = false ->
    0 <= acc -> digits_value base ds acc < 2 ^ (bits - 1) ->
    convert bits base (ds ++ rest) acc p
    = (digits_value base ds acc, (p + length ds)%nat).
Proof.
  induction ds as [|c ds IH]; intros acc p Hbits Hds Hstop Hacc Hfit;
    cbn [app digits_value length].
  - rewrite Nat.add_0_r. destruct rest as [|c rest]; [reflexivity|].
    cbn [hd convert] in *. unfold is_digit_in in Hstop.
    destruct (c =? 0); [reflexivity|].
    destruct (digit_value c) as [digit|]; [|reflexivity].
    cbn [negb andb] in Hstop. apply Bool.negb_false_iff in Hstop.
    now rewrite Hstop.
  - inversion Hds as [|? ? Hc Hrest]; subst.
    destruct (is_digit_in_inv base c Hc) as (Hnz & digit & Hd & Hrange & _).
    cbn [convert]. apply Z.eqb_neq in Hnz. rewrite Hnz, Hd.
    replace (digit >=? base) with false by lia.
    cbn [digits_value] in Hfit. rewrite Hd in Hfit.
    pose proof (digits_value_grows base ds (acc * base + digit) Hrest
                  ltac:(nia)) as Hgrow.
    rewrite wrap_signed_small
      by (assumption || (pose proof (Z.pow_pos_nonneg 2 (bits - 1)); nia)).
    rewrite IH by (assumption || nia). f_equal. lia.
Qed.

(** The parse of spaces, a sign, digits and whatever stops the digits. *)
Lemma parse_with_value bits space (ws sg ds rest : list Z) (base : Z) :
  0 < bits ->
  Forall (fun c => space c = true) ws ->
  (forall c, 43 <= c <= 122 -> space c = false) ->
  sg = [] \/ sg = [43] \/ sg = [45] ->
  ds <> [] ->
  Forall (fun c => is_digit_in base c = true) ds ->
  is_digit_in base (hd 0 rest) = false ->
  base <> 16 ->
  digits_value base ds 0 < 2 ^ (bits - 1) ->
  parse_with bits space (ws ++ sg ++ ds ++ rest) true base
  = (with_sign sg (digits_value base ds 0),
     Some (length ws + length sg + length ds)%nat).
Proof.
  intros Hbits Hws Hspace Hsg Hne Hds Hstop H16 Hfit.
  destruct ds as [|d ds]; [congruence|].
  inversion Hds as [|? ? Hd Hrest]; subst.
  destruct (is_digit_in_inv base d Hd) as (Hdnz & digit & Hdv & Hdr & Hdc).
  pose proof (digits_value_grows base (d :: ds) 0 Hds ltac:(lia)) as Hpos.
  unfold parse_with.
  rewrite skip_spaces_app;
    [|assumption
     |right; destruct Hsg as [-> | [-> | ->]]; cbn; apply Hspace; lia].
  cbn [Nat.add].
  assert (Hsign : parse_sign (ws ++ sg ++ (d :: ds) ++ rest) (length ws)
                  = (match sg with 45 :: _ => true | _ => false end,
                     (length ws + length sg)%nat)).
  { unfold parse_sign, char_at. rewrite app_nth2, Nat.sub_diag by lia.
    destruct Hsg as [-> | [-> | ->]]; cbn [app nth length].
    - replace (d =? 45) with false by lia. replace (d =? 43) with false by lia.
      f_equal. lia.
    - cbn. f_equal. lia.
    - cbn. f_equal. lia. }
  rewrite Hsign.
  assert (Hbase : detect_base base (ws ++ sg ++ (d :: ds) ++ rest)
                              (length ws + length sg)
                  = (base, (length ws + length sg)%nat)).
  { unfold detect_base. replace (base =? 0) with false by lia.
    replace (base =? 16) with false by lia. reflexivity. }
  rewrite Hbase.
  assert (Hskip : skipn (length ws + length sg)
                        (ws ++ sg ++ (d :: ds) ++ rest)
                  = (d :: ds) ++ rest).
  { rewrite skipn_app, skipn_all2 by lia. cbn [app].
    replace (length ws + length sg - length ws)%nat with (length sg) by lia.
    rewrite skipn_app, skipn_all2, Nat.sub_diag by lia. reflexivity. }
  rewrite Hskip, (convert_digits bits base rest (d :: ds)) by (assumption || lia).
  f_equal.
  destruct Hsg as [-> | [-> | ->]]; cbn [with_sign]; try reflexivity.
  apply wrap_signed_small; lia.
Qed.

(** X23: [strtol] and [strtoll] read a number: on whitespace, an optional
    sign, a non-empty run of digits of the base and then a character that
    is not one, they return the value of the digits with that sign and
    set the end-pointer just after the digits, as long as the value fits
    the result type and the base is not 16; [atoi] and [atol] return the
    same value in base 10. *)
Theorem strtol_reads_number (ws sg ds rest : list Z) (base : Z) :
  Forall (fun c => isspace (c mod 256) = true) ws ->
  sg = [] \/ sg = [43] \/ sg = [45] ->
  ds <> [] ->
  Forall (fun c => is_digit_in base c = true) ds ->
  is_digit_in base (hd 0 rest) = false ->
  base <> 16 ->
  let v := digits_value base ds 0 in
  let str := ws ++ sg ++ ds ++ rest in
  let e := (length ws + length sg + length ds)%nat in
  (v < 2 ^ 31 ->
   strtol str true base = (with_sign sg v, Some e) /\
   (base = 10 -> atoi str = with_sign sg v /\ atol str = with_sign sg v)) /\
  (v < 2 ^ 63 -> strtoll str true base = (with_sign sg v, Some e)).
Proof.
  intros Hws Hsg Hne Hds Hstop H16 v str e. split.
  - intros Hfit.
    assert (Hparse : forall endptr,
               fst (strtol str endptr base) = with_sign sg v /\
               strtol str true base = (with_sign sg v, Some e)).
    { intros endptr.
      pose proof (parse_with_value 32 (fun c => isspace (c mod 256))
                    ws sg ds rest base ltac:(lia) Hws isspace_not_printable
                    Hsg Hne Hds Hstop H16 Hfit) as H.
      rewrite strtol_parse_with. split; [|exact H].
      unfold parse_with in *. fold str in H |- *.
      destruct (parse_sign str _) as [negative p1].
      destruct (detect_base base str p1) as [b p2].
      destruct (convert 32 b (skipn p2 str) 0 p2) as [result p3].
      cbn [fst]. now injection H. }
    split; [apply (Hparse true)|]. intros ->.
    unfold atoi, atol. rewrite (proj1 (Hparse false)).
    split; [|reflexivity].
    unfold to_int. apply wrap_signed_small; [lia|].
    pose proof (digits_value_grows 10 ds 0 Hds ltac:(lia)).
    fold v in H.
    destruct Hsg as [-> | [-> | ->]]; cbn [with_sign];
      change (2 ^ (32 - 1)) with (2 ^ 31); lia.
  - intros Hfit. rewrite strtoll_parse_with.
    apply parse_with_value; try assumption; try lia.
    apply isspace_not_printable.
Qed.

(** ** Copy and move *)

(** X26: where [memcpy] is right, that is when the destination is not
    above the source or the ranges do not overlap, it leaves the same
    memory as [memmove]. *)
Theorem memcpy_agrees_with_memmove (m : memory) (dest src count : Z) :
  dest <= src \/ src + count <= dest ->
  forall x, memcpy m dest src count x = memmove m dest src count x.
Proof.
  intros Hds x. unfold memcpy, memmove.
  destruct (Z.ltb_spec dest src) as [Hlt|Hge]; [reflexivity|].
  assert (Hin : dest <= x < dest + count \/ (x < dest \/ dest + count <= x))
    by lia.
  destruct Hin as [Hin|Hout].
  - replace x with (dest + (x - dest)) at 1 by lia.
    rewrite copy_forward_content by lia.
    destruct (Z.gtb_spec dest src) as [Hgt|Hle].
    + replace x with (dest + count - (count - (x - dest))) at 2 by lia.
      rewrite copy_backward_content by lia. f_equal. lia.
    + f_equal. lia.
  - rewrite copy_forward_frame by lia.
    destruct (Z.gtb_spec dest src) as [Hgt|Hle]; [|reflexivity].
    rewrite copy_backward_frame by lia. reflexivity.
Qed.

(** ** The environment *)

Lemma string_at_of_cells m s l :
  Forall (fun c => c <> 0) l ->
  (forall i, (i < length l)%nat -> m (s + Z.of_nat i) = nth i l 0) ->
  m (s + Z.of_nat (length l)) = 0 ->
  string_at m s l.
Proof.
  revert s; induction l as [|c l IH]; intros s Hnz Hcells Hend.
  - cbn in *. now rewrite Z.add_0_r in Hend.
  - inversion Hnz; subst. cbn [string_at]. split; [|split].
    + specialize (Hcells O). cbn in Hcells. rewrite Z.add_0_r in Hcells.
      apply Hcells. lia.
    + assumption.
    + apply IH; [assumption | |].
      * intros i Hi. specialize (Hcells (S i)). cbn [nth length] in Hcells.
        rewrite <- Hcells by lia. f_equal. lia.
      * rewrite <- Hend. cbn [length]. f_equal. lia.
Qed.

Lemma string_at_suffix m a b :
  forall s, string_at m s (a ++ b) -> string_at m (s + Z.of_nat (length a)) b.
Proof.
  induction a as [|c a IH]; intros s H.
  - cbn in *. now rewrite Z.add_0_r.
  - destruct H as (_ & _ & H). apply IH in H. cbn [length].
    replace (s + Z.of_nat (S (length a))) with (s + 1 + Z.of_nat (length a))
      by lia.
    exact H.
Qed.

Section EnvironmentProperties.
Context {os : Win32}.

Variable Env : Type.
Variable SetEnvironmentVariableA : Env -> memory -> Z -> Z -> bool * Env.

(** X27: [_putenv] splits its argument at the first ['=']: a string
    without one is refused with -1 and nothing is changed; so is a string
    for whose name no memory is left; otherwise the environment primitive
    is called with a fresh copy of the name as a string and with the
    value, or with [NULL] for an empty value, the copy is released, and
    the status is 0 when the primitive succeeds and -1 when it fails. *)
Theorem putenv_splits_at_equals
        (fuel : nat) (st : process Heap) (env : Env) (envstring name : Z)
        (h : Heap) (nm val l : list Z) :
  string_at (mem st) envstring l -> (length l < fuel)%nat ->
  Z.of_nat (length l) + 1 < SIZE_MOD ->
  (~ In 61 l ->
   _putenv Env SetEnvironmentVariableA fuel st env envstring
   = Some (-1, st, env)) /\
  (l = nm ++ 61 :: val -> ~ In 61 nm -> 0 < envstring ->
   HeapAlloc (heap st) 0 (Z.of_nat (length nm) + 1) = (name, h) ->
   (name = NULL ->
    _putenv Env SetEnvironmentVariableA fuel st env envstring
    = Some (-1, mkProcess h (mem st), env)) /\
   (name <> NULL ->
    name + Z.of_nat (length nm) < envstring
    \/ envstring + Z.of_nat (length l) < name ->
    exists m',
      string_at m' name nm /\
      string_at m' (envstring + Z.of_nat (length nm) + 1) val /\
      string_at m' envstring l /\
      _putenv Env SetEnvironmentVariableA fuel st env envstring
      = Some (let (result, env') :=
                SetEnvironmentVariableA env m' name
                  (match val with
                   | [] => NULL
                   | _ => envstring + Z.of_nat (length nm) + 1
                   end) in
              (if result then 0 else -1,
               mkProcess (HeapFree h name) m', env')))).
Proof.
  intros Hstr Hfuel Hfit. unfold _putenv, strchr.
  destruct (strchr_loop_first_ascii 61 l fuel (mem st) envstring
              ltac:(lia) Hstr Hfuel)
    as [(i & Hi & Hhit & Hpre & Hres) | (Hnone & Hres)];
    rewrite Hres.
  2:{ split.
      - intros _. reflexivity.
      - intros Hl Hnm. exfalso. apply Hnone. subst l.
        apply in_or_app. right. now left. }
  split.
  { intros Hnot. exfalso. apply Hnot. rewrite <- Hhit. now apply nth_In. }
  intros Hl Hnm Hpos Halloc.
  assert (Hidx : i = length nm).
  { subst l. destruct (Nat.lt_trichotomy i (length nm)) as [Hlt|[Heq|Hgt]].
    - exfalso. apply Hnm. rewrite app_nth1 in Hhit by lia.
      rewrite <- Hhit. now apply nth_In.
    - exact Heq.
    - exfalso. apply (Hpre (length nm)); [lia|].
      rewrite app_nth2, Nat.sub_diag by lia. reflexivity. }
  subst i.
  replace (envstring + Z.of_nat (length nm) =? NULL) with false
    by (symmetry; apply Z.eqb_neq; unfold NULL; lia).
  assert (Hlen : length l = (length nm + S (length val))%nat)
    by (subst l; rewrite length_app; reflexivity).
  replace (envstring + Z.of_nat (length nm) - envstring)
    with (Z.of_nat (length nm)) by lia.
  rewrite (to_size_t_small (Z.of_nat (length nm))) by lia.
  rewrite (to_size_t_small (Z.of_nat (length nm) + 1)) by lia.
  unfold malloc.
  replace (Z.of_nat (length nm) + 1 =? 0) with false
    by (symmetry; apply Z.eqb_neq; lia).
  rewrite Halloc. split.
  { intros ->. reflexivity. }
  intros Hname Hdis. apply Z.eqb_neq in Hname. rewrite Hname.
  apply Z.eqb_neq in Hname. cbn [heap mem].
  set (m1 := memcpy (mem st) name envstring (Z.of_nat (length nm))).
  set (m' := store m1 (name + Z.of_nat (length nm)) 0).
  assert (Hall : string_at m' envstring l).
  { apply (string_at_ext (mem st) _ envstring); [exact Hstr|].
    intros j Hj. unfold m'. rewrite store_other by lia.
    apply memcpy_frame. lia. }
  assert (Hval : string_at m' (envstring + Z.of_nat (length nm) + 1) val).
  { pose proof Hall as Hsuf. rewrite Hl in Hsuf.
    apply string_at_suffix in Hsuf. destruct Hsuf as (_ & _ & Hsuf).
    exact Hsuf. }
  assert (Hnm' : string_at m' name nm).
  { apply string_at_of_cells.
    - pose proof (string_at_nonzero _ _ _ Hstr) as Hnz. rewrite Hl in Hnz.
      apply Forall_app in Hnz. apply Hnz.
    - intros j Hj. unfold m'. rewrite store_other by lia.
      unfold m1. rewrite memcpy_content by lia.
      rewrite (string_at_cell (mem st) envstring l) by (assumption || lia).
      rewrite Hl. apply app_nth1. exact Hj.
    - unfold m'. apply store_same. }
  exists m'. split; [exact Hnm'|]. split; [exact Hval|]. split; [exact Hall|].
  rewrite free_nonnull by assumption. cbn [heap mem].
  replace (if negb (m' (envstring + Z.of_nat (length nm) + 1) =? 0)
           then envstring + Z.of_nat (length nm) + 1 else NULL)
    with (match val with
          | [] => NULL
          | _ => envstring + Z.of_nat (length nm) + 1
          end).
  { destruct (SetEnvironmentVariableA env m' name _) as [result env'].
    reflexivity. }
  destruct val as [|c val]; cbn [string_at] in Hval.
  - rewrite Hval. reflexivity.
  - destruct Hval as (Hc & Hcnz & _). rewrite Hc.
    apply Z.eqb_neq in Hcnz. now rewrite Hcnz.
Qed.

End EnvironmentProperties.

(** * The further statements at concrete inputs *)

Ltac string_here :=
  cbn [string_at]; repeat split; try reflexivity; try discriminate.

Lemma two_strings_dest : string_at two_strings 100 [97; 98].
Proof. string_here. Defined.

Lemma two_strings_src : string_at two_strings 200 [99; 100; 101; 102].
Proof. string_here. Defined.

Lemma memset_fills_witness :
  memset overlapping 101 263 2 (101 + 1) = 263 mod 256 /\
  memset overlapping 101 263 2 103 = overlapping 103.
Proof.
  destruct (memset_fills overlapping 101 263 2) as (Hfill & Hframe & _).
  split; [apply Hfill | apply Hframe]; lia.
Defined.

Lemma memcpy_copies_witness :
  load_range (memcpy overlapping 100 102 3) 100 (Z.to_nat 3)
  = load_range overlapping 102 (Z.to_nat 3).
Proof. apply (memcpy_copies overlapping 100 102 3). left. lia. Defined.

Lemma memcmp_first_difference_witness :
  exists i, 0 <= i < 2 /\
    memcmp overlapping 100 101 2
    = to_uchar (overlapping (100 + i)) - to_uchar (overlapping (101 + i)).
Proof.
  destruct (proj2 (memcmp_first_difference overlapping 100 101 2))
    as (i & Hi & _ & Hres).
  - vm_compute. discriminate.
  - exists i. split; [exact Hi | exact Hres].
Defined.

Lemma memchr_first_witness :
  (exists i, 0 <= i < 5 /\
     memchr overlapping 100 (256 + 3) 5 = 100 + i /\
     to_uchar (overlapping (100 + i)) = to_uchar (256 + 3) /\
     forall j, 0 <= j < i ->
               to_uchar (overlapping (100 + j)) <> to_uchar (256 + 3)) \/
  (memchr overlapping 100 (256 + 3) 5 = NULL /\
   forall j, 0 <= j < 5 ->
             to_uchar (overlapping (100 + j)) <> to_uchar (256 + 3)).
Proof. exact (memchr_first overlapping 100 (256 + 3) 5). Defined.

Lemma strlen_counts_witness :
  strlen 3 two_strings 100 = Some 2 /\ wcslen 3 two_strings 100 = Some 2.
Proof.
  apply (proj1 (strlen_counts 3 two_strings 100 [97; 98]));
    [exact two_strings_dest | cbn; lia].
Defined.

Lemma strcpy_copies_witness :
  exists m', strcpy 5 two_strings 300 200 = Some m' /\
             string_at m' 300 [99; 100; 101; 102].
Proof.
  destruct (strcpy_copies 5 two_strings 300 200 [99; 100; 101; 102])
    as (m' & Hcpy & _ & Hstr & _).
  - exact two_strings_src.
  - cbn. lia.
  - right. cbn. lia.
  - exists m'. split; assumption.
Defined.

Lemma strcat_appends_witness :
  exists m', strcat 5 two_strings 100 200 = Some m' /\
             string_at m' 100 ([97; 98] ++ [99; 100; 101; 102]).
Proof.
  destruct (strcat_appends 5 two_strings 100 200 [97; 98] [99; 100; 101; 102])
    as (m' & Hcat & Hstr & _).
  - exact two_strings_dest.
  - exact two_strings_src.
  - cbn. lia.
  - cbn. lia.
  - left. cbn. lia.
  - exists m'. split; assumption.
Defined.

Lemma strcmp_equal_and_antisymmetric_witness :
  exists r, strcmp 5 two_strings 100 200 = Some r /\
            strcmp 5 two_strings 200 100 = Some (- r) /\
            (r = 0 <-> [97; 98] = [99; 100; 101; 102]).
Proof.
  apply (proj2 (strcmp_equal_and_antisymmetric
                  5 two_strings 100 200 [97; 98] [99; 100; 101; 102]
                  two_strings_dest two_strings_src
                  ltac:(cbn; lia) ltac:(cbn; lia)));
    repeat constructor; unfold is_char; lia.
Defined.

Lemma strncmp_bounded_witness :
  strncmp two_strings 100 200 0 = 0
  <-> firstn (Z.to_nat 0) [97; 98] = firstn (Z.to_nat 0) [99; 100; 101; 102].
Proof.
  apply (proj2 (strncmp_bounded two_strings 100 200 0
                  [97; 98] [99; 100; 101; 102]
                  two_strings_dest two_strings_src));
    repeat constructor; unfold is_char; lia.
Defined.

Lemma high_bytes_string : string_at high_bytes 100 [200; 200].
Proof. string_here. Defined.

Lemma high_bytes_are_bytes : Forall is_byte [200; 200].
Proof. repeat constructor; unfold is_byte; lia. Defined.

Lemma strchr_first_occurrence_witness :
  strchr 3 high_bytes 100 200 = Some 100 /\
  strchr 3 high_bytes 100 (-56) = Some 100.
Proof.
  split.
  - destruct (proj1 (strchr_first_occurrence 3 high_bytes 100 200 [200; 200]
                       high_bytes_string ltac:(cbn; lia))
                    high_bytes_are_bytes)
      as [(i & Hi & Hhit & Hpre & Hres) | (Hnone & _)].
    + destruct i as [|i]; [exact Hres|].
      exfalso. apply (Hpre O); [lia | reflexivity].
    + exfalso. apply (Hnone 200); [left; reflexivity | reflexivity].
  - destruct (proj1 (strchr_first_occurrence 3 high_bytes 100 (-56) [200; 200]
                       high_bytes_string ltac:(cbn; lia))
                    high_bytes_are_bytes)
      as [(i & Hi & Hhit & Hpre & Hres) | (Hnone & _)].
    + destruct i as [|i]; [exact Hres|].
      exfalso. apply (Hpre O); [lia | reflexivity].
    + exfalso. apply (Hnone 200); [left; reflexivity | reflexivity].
Defined.

Lemma strrchr_last_occurrence_witness :
  strrchr 3 high_bytes 100 200 = Some 101.
Proof.
  destruct (strrchr_last_occurrence 3 high_bytes 100 200 [200; 200]
              high_bytes_string high_bytes_are_bytes ltac:(cbn; lia))
    as (r & Hr & _ & Hlast).
  rewrite Hr. f_equal.
  destruct (Hlast ltac:(discriminate))
    as [(i & Hi & Hhit & Hpost & Hres) | (Hnone & _)].
  - destruct i as [|[|i]]; cbn [length] in Hi; [|exact Hres|lia].
    exfalso. apply (Hpost 1%nat); [cbn [length]; lia | reflexivity].
  - exfalso. apply (Hnone 200); [left; reflexivity | reflexivity].
Defined.




Lemma strdup_copies_witness :
  let st := mkProcess (4096 : @Heap bump64) two_strings in
  exists st', strdup (os := bump64) 3 st 100 = Some (4096, st') /\
              string_at (mem st') 4096 [97; 98].
Proof.
  intros st.
  destruct (proj2 (strdup_copies (os := bump64) 3 st 100 4096 4099 [97; 98]
                     two_strings_dest ltac:(cbn; lia)
                     ltac:(vm_compute; reflexivity) eq_refl))
    as (st' & Hdup & _ & _ & Hstr & _).
  - discriminate.
  - right. cbn. lia.
  - exists st'. split; assumption.
Defined.

Lemma classification_ascii_only_witness :
  isalpha 200 = false /\ toupper 200 = 200.
Proof.
  destruct (classification_ascii_only 200 ltac:(lia))
    as (_ & _ & Ha & _ & _ & _ & _ & _ & _ & _ & _ & _ & Hu).
  split; assumption.
Defined.

Lemma case_conversion_round_trip_witness :
  islower (tolower 65) = true /\ toupper (tolower 65) = 65.
Proof. apply (proj1 (case_conversion_round_trip 65)). reflexivity. Defined.

Lemma classification_partition_witness : iscntrl 65 = negb (isprint 65).
Proof.
  apply (proj2 (proj2 (proj2 (proj2 (proj2 (proj2
           (classification_partition 65))))))). lia.
Defined.

Lemma abs_least_value_wraps_witness : abs (-5) = Z.abs (-5).
Proof.
  apply (proj1 (abs_least_value_wraps (-5))). split; reflexivity.
Defined.

Lemma bsearch_finds_witness :
  exists i, 0 <= i < 4 /\
    bsearch compar_key sorted_bytes 102 100 4 1 = Some (100 + i * 1) /\
    compar_key sorted_bytes 102 (100 + i * 1) = 0.
Proof.
  destruct (bsearch_finds compar_key sorted_bytes 102 100 4 1)
    as (r & Hr & [(i & Hi & Hri & Hzero) | (Hnull & _)]).
  - exists i. subst r. auto.
  - exfalso. subst r. vm_compute in Hr. discriminate Hr.
Defined.

Lemma qsort_then_bsearch_witness :
  let st := mkProcess (4096 : @Heap bump64) keyed_array in
  let m' := mem (qsort (os := bump64) compar_key st 100 4 2) in
  exists i, 0 <= i < 4 /\
    bsearch compar_key m' 104 100 4 2 = Some (100 + i * 2) /\
    compar_key m' 104 (100 + i * 2) = 0.
Proof.
  intros st m'.
  apply (qsort_then_bsearch (os := bump64) compar_key cmp_key
           cmp_key_total_preorder st 100 4 2 4096 104 4098 [2; 0]).
  - lia.
  - lia.
  - intros m p q. reflexivity.
  - reflexivity.
  - discriminate.
  - right. lia.
  - left. reflexivity.
  - reflexivity.
Defined.

Lemma strtol_reads_number_witness :
  strtol ([32] ++ [45] ++ [52; 50] ++ []) true 10
  = (with_sign [45] (digits_value 10 [52; 50] 0), Some 4%nat).
Proof.
  apply (proj1 (strtol_reads_number [32] [45] [52; 50] [] 10
                  ltac:(repeat constructor)
                  ltac:(right; right; reflexivity)
                  ltac:(discriminate)
                  ltac:(repeat constructor)
                  eq_refl
                  ltac:(discriminate))).
  reflexivity.
Defined.

Lemma strncpy_long_source_witness :
  strncpy two_strings 300 200 2 (300 + 1) = two_strings (200 + 1).
Proof.
  destruct (strncpy_long_source two_strings 300 200 2) as (Hcopy & _).
  - lia.
  - intros i Hi.
    assert (i = 0 \/ i = 1) as [-> | ->] by lia; vm_compute; discriminate.
  - right. lia.
  - apply Hcopy. lia.
Defined.

Lemma strncat_short_source_witness :
  exists m', strncat (os := bump64) 3 two_strings 100 200 9 = Some m' /\
             m' (100 + 2 + 4) = 0.
Proof.
  destruct (strncat_short_source (os := bump64) 3 two_strings 100 200 9 2 4)
    as (m' & Hcat & _ & Hterm & _).
  - apply (string_at_cstring _ _ _ two_strings_dest).
  - vm_compute. lia.
  - apply (string_at_cstring _ _ _ two_strings_src).
  - split; [lia|]. vm_compute. discriminate.
  - left. lia.
  - exists m'. split; assumption.
Defined.

Lemma memcpy_agrees_with_memmove_witness :
  memcpy overlapping 100 102 3 100 = memmove overlapping 100 102 3 100.
Proof. apply (memcpy_agrees_with_memmove overlapping 100 102 3). left. lia. Defined.

Lemma putenv_splits_at_equals_witness :
  let st := mkProcess (4096 : @Heap bump64) env_string in
  exists m',
    string_at m' 4096 [65] /\
    _putenv (os := bump64) nat counting_SetEnvironmentVariableA 4 st O 100
    = Some (0, mkProcess (bump_HeapFree 4098 4096) m', 1%nat).
Proof.
  intros st.
  destruct (putenv_splits_at_equals (os := bump64)
              nat counting_SetEnvironmentVariableA
              4 st O 100 4096 4098 [65] [98] [65; 61; 98])
    as (_ & Hsplit).
  - string_here.
  - cbn. lia.
  - vm_compute. reflexivity.
  - destruct (Hsplit eq_refl) as (_ & Hok).
    + intros [H|[]]. discriminate H.
    + lia.
    + reflexivity.
    + destruct Hok as (m' & Hnm & _ & _ & Hres).
      * discriminate.
      * right. cbn. lia.
      * exists m'. split; [exact Hnm | exact Hres].
Defined.
